(** * formatron: extractors and the batched logits processor

    A shallow embedding of [formatron/extractor.py] and
    [formatron/integrations/transformers.py], and the properties of the
    extractor hierarchy, of the vocabulary canonicalisation and of
    [FormattersLogitsProcessor.__call__].

    Conventions.  A Python [str] is a [string]; [None] is [None]; a
    dictionary is an association list in insertion order; a raised
    exception is an explicit outcome and leaves the mutated objects as
    they were when it was raised. *)

From Stdlib Require Import ZArith Ascii String SpecFloat.
From stdpp Require Import base option list strings functions.

Open Scope Z_scope.

(** ** Python strings *)

Module Str.

(** [s.startswith(p)]. *)
Fixpoint startswith (s p : string) {struct p} : bool :=
  match p, s with
  | EmptyString, _ => true
  | String _ _, EmptyString => false
  | String a p', String b s' => if decide (a = b) then startswith s' p' else false
  end.

(** [s.find(sub)]: the lowest index at which [sub] occurs in [s], or -1. *)
Fixpoint find (s sub : string) : Z :=
  if startswith s sub then 0
  else match s with
       | EmptyString => -1
       | String _ s' => let r := find s' sub in if r =? -1 then -1 else r + 1
       end.

Fixpoint drop (n : nat) (s : string) : string :=
  match n, s with
  | O, _ => s
  | S _, EmptyString => EmptyString
  | S n', String _ s' => drop n' s'
  end.

(** [s[k:]]; a negative [k] counts from the end. *)
Definition slice_from (s : string) (k : Z) : string :=
  if 0 <=? k then drop (Z.to_nat k) s
  else drop (Z.to_nat (Z.of_nat (String.length s) + k)) s.

Definition len (s : string) : Z := Z.of_nat (String.length s).

(** [sep.join(l)]. *)
Fixpoint join (sep : string) (l : list string) : string :=
  match l with
  | [] => ""
  | [x] => x
  | x :: rest => x +:+ sep +:+ join sep rest
  end.

End Str.

(** ** extractor.py *)

(** The extracted data is [typing.Any]. *)
Inductive value : Type :=
  | VStr (s : string)
  | VInt (z : Z)
  | VBool (b : bool).

(** The abstract class [Extractor]: an object with a capture name, the
    [extract] method and the two grammar properties. *)
Record Extractor : Type := {
  capture_name : option string;
  extract : string → option (string * value);
  kbnf_reference : string;
  kbnf_definition : string
}.

(** [NonterminalExtractor]: the fields set by [__init__]. *)
Record NonterminalExtractor : Type := {
  nt_capture_name : option string;
  nonterminal : string
}.

Definition NonterminalExtractor_init
    (nonterminal : string) (capture_name : option string) : NonterminalExtractor :=
  {| nt_capture_name := capture_name;
     nonterminal :=
       match capture_name with
       | None => nonterminal
       | Some c => nonterminal +:+ "_" +:+ c
       end |}.

Definition NonterminalExtractor_kbnf_reference (self : NonterminalExtractor) : string :=
  nonterminal self.

(** [LiteralExtractor.extract]. *)
Definition LiteralExtractor_extract
    (literal : string) (input_str : string) : option (string * value) :=
  let pos := Str.find input_str literal in
  if pos =? -1 then None
  else Some (Str.slice_from input_str (pos + Str.len literal), VStr literal).

(** [ChoiceExtractor]: a nonterminal extractor with its choices. *)
Record ChoiceExtractor : Type := {
  ce_super : NonterminalExtractor;
  choices : list Extractor
}.

Definition ChoiceExtractor_init
    (choices : list Extractor) (capture_name : option string)
    (nonterminal : string) : ChoiceExtractor :=
  {| ce_super := NonterminalExtractor_init nonterminal capture_name;
     choices := choices |}.

(** The loop of [ChoiceExtractor.extract], from the [k]-th choice on.  It
    returns, with the result, the positions of the choices whose
    [extract] was invoked, in the order of the invocations. *)
Fixpoint extract_loop (cs : list Extractor) (k : nat) (input_str : string)
    : list nat * option (string * value) :=
  match cs with
  | [] => ([], None)
  | choice :: rest =>
      match extract choice input_str with
      | Some matched => ([k], Some matched)
      | None =>
          let '(log, r) := extract_loop rest (S k) input_str in (k :: log, r)
      end
  end.

Definition ChoiceExtractor_extract (self : ChoiceExtractor) (input_str : string)
    : option (string * value) :=
  (extract_loop (choices self) 0 input_str).2.

Definition ChoiceExtractor_invoked (self : ChoiceExtractor) (input_str : string)
    : list nat :=
  (extract_loop (choices self) 0 input_str).1.

Definition ChoiceExtractor_kbnf_definition (self : ChoiceExtractor) : string :=
  nonterminal (ce_super self) +:+ " ::= "
    +:+ Str.join " | " (map kbnf_reference (choices self)) +:+ ";".

Definition ChoiceExtractor_kbnf_reference (self : ChoiceExtractor) : string :=
  NonterminalExtractor_kbnf_reference (ce_super self).

(** The objects as instances of [Extractor].  [repr] is Python's built-in
    [repr] on strings. *)
Section AsExtractor.
Variable repr : string → string.

Definition LiteralExtractor (literal : string) : Extractor :=
  {| capture_name := None;
     extract := LiteralExtractor_extract literal;
     kbnf_reference := repr literal;
     kbnf_definition := "" |}.

Definition ChoiceExtractor_as_Extractor (self : ChoiceExtractor) : Extractor :=
  {| capture_name := nt_capture_name (ce_super self);
     extract := ChoiceExtractor_extract self;
     kbnf_reference := ChoiceExtractor_kbnf_reference self;
     kbnf_definition := ChoiceExtractor_kbnf_definition self |}.
End AsExtractor.



(** ** integrations/transformers.py: the vocabulary *)

(** Exceptions, and the outcome of a computation that may raise one. *)
Inductive exn : Type :=
  | AssertionError
  | KeyError
  | IndexError
  | RuntimeError
  | FormatterError.

Inductive outcome (A : Type) : Type :=
  | Ok (a : A)
  | Raise (e : exn).
Arguments Ok {A} a.
Arguments Raise {A} e.

#[global] Instance outcome_ret : MRet outcome := λ A a, Ok a.
#[global] Instance outcome_bind : MBind outcome := λ A B f m,
  match m with
  | Ok a => f a
  | Raise e => Raise e
  end.

#[global] Instance outcome_fmap : FMap outcome := λ A B f m,
  match m with
  | Ok a => Ok (f a)
  | Raise e => Raise e
  end.

(** A [for] loop that threads an accumulator and stops at the first
    exception. *)
Fixpoint for_acc {A B} (body : B → A → outcome B) (acc : B) (l : list A) : outcome B :=
  match l with
  | [] => Ok acc
  | a :: rest => acc' ← body acc a; for_acc body acc' rest
  end.

(** Dictionaries: association lists in insertion order, with unique keys. *)
Module Dict.
Section Dict.
Context {K V : Type} `{EqDecision K}.

Fixpoint get (k : K) (d : list (K * V)) : option V :=
  match d with
  | [] => None
  | (k', v) :: rest => if decide (k = k') then Some v else get k rest
  end.

(** [d[k] = v]: an existing key keeps its place. *)
Fixpoint set (k : K) (v : V) (d : list (K * V)) : list (K * V) :=
  match d with
  | [] => [(k, v)]
  | (k', v') :: rest => if decide (k = k') then (k, v) :: rest else (k', v') :: set k v rest
  end.

Definition keys (d : list (K * V)) : list K := d.*1.
End Dict.
End Dict.

(** [re.sub] for a pattern that is a group of literal alternatives, as
    [_multiple_replace] compiles it.  The pattern built from no key at all
    is the empty group, which matches the empty string. *)
Module Re.

Definition alternatives (keys : list string) : list string :=
  match keys with
  | [] => [""]
  | _ => keys
  end.

(** The match of the pattern at the start of [s]: the first alternative, in
    order, that [s] starts with; after an empty match the engine must
    advance, and an empty alternative is not accepted there. *)
Definition match_here (alts : list string) (must_advance : bool) (s : string) : option string :=
  List.find (λ k, Str.startswith s k && (negb must_advance || negb (String.eqb k ""))) alts.

(** The text that remains after a non-empty match of [k] at the start of
    [String c s']: [s'] of which [length k - 1] characters are still to be
    skipped. *)
Fixpoint sub_loop (alts : list string) (repl : string → outcome string)
    (s : string) (skip : nat) {struct s} : outcome string :=
  match skip, s with
  | S n, String _ s' => sub_loop alts repl s' n
  | S _, EmptyString => Ok ""
  | O, _ =>
      let copy :=
        match s with
        | EmptyString => Ok ""
        | String c s' => rest ← sub_loop alts repl s' 0; Ok (String c rest)
        end in
      let consume (k : string) :=
        match s with
        | EmptyString => Ok ""
        | String _ s' => sub_loop alts repl s' (String.length k - 1)
        end in
      match match_here alts false s with
      | None => copy
      | Some EmptyString =>
          r ← repl "";
          match match_here alts true s with
          | None => rest ← copy; Ok (r +:+ rest)
          | Some k' => r' ← repl k'; rest ← consume k'; Ok (r +:+ r' +:+ rest)
          end
      | Some k => r ← repl k; rest ← consume k; Ok (r +:+ rest)
      end
  end.

Definition sub (keys : list string) (repl : string → outcome string) (text : string)
    : outcome string :=
  sub_loop (alternatives keys) repl text 0.

End Re.

Definition _multiple_replace (replacements : list (string * string)) (text : string)
    : outcome string :=
  Re.sub (Dict.keys replacements)
    (λ group, match Dict.get group replacements with
              | Some new => Ok new
              | None => Raise KeyError
              end)
    text.

(** The tokenizer, as far as this module uses it. *)
Record Tokenizer : Type := {
  get_vocab : list (string * Z);
  encode : string → list Z;
  eos_token_id : Z
}.

(** [{v: k for k, v in d.items()}]. *)
Definition invert {K V} `{EqDecision V} (d : list (K * V)) : list (V * K) :=
  fold_left (λ acc kv, Dict.set kv.2 kv.1 acc) d [].

Definition _get_original_whitespace_characters
    (tokenizer : Tokenizer) (vocab : list (string * Z)) (chars : list string)
    : outcome (list (string * Z)) :=
  let id2tokens := invert vocab in
  old_char_to_new_char ←
    for_acc (λ old char,
      match encode tokenizer char with
      | [char_id] =>
          match Dict.get char_id id2tokens with
          | None => Raise KeyError
          | Some char_token =>
              if decide (char_token ≠ char) then Ok (Dict.set char_token char old)
              else Ok old
          end
      | _ => Ok old
      end) [] chars;
  for_acc (λ new_vocab kv,
    new_k ← _multiple_replace old_char_to_new_char kv.1;
    Ok (Dict.set new_k kv.2 new_vocab)) [] vocab.

Definition NL : string := String "010"%char "".
Definition TAB : string := String "009"%char "".

(** [s.encode("utf-8")], for the code points below 256 that a [string]
    holds. *)
Fixpoint encode_utf8 (s : string) : list N :=
  match s with
  | EmptyString => []
  | String c s' =>
      let n := N_of_ascii c in
      (if (n <? 128)%N then [n] else [192 + n / 64; 128 + n mod 64]%N) ++ encode_utf8 s'
  end.

(** The two dictionaries from which [kbnf.Vocabulary] is built. *)
Record Vocabulary : Type := {
  id_to_token : list (Z * list N);
  id_to_token_string : list (Z * string)
}.

Definition create_engine_vocabulary (tokenizer : Tokenizer) : outcome Vocabulary :=
  let vocab := get_vocab tokenizer in
  new_vocab ← _get_original_whitespace_characters tokenizer vocab
                 [" "; NL; TAB; NL +:+ NL];
  Ok {| id_to_token :=
          fold_left (λ d kv, Dict.set kv.2 (encode_utf8 kv.1) d) new_vocab [];
        id_to_token_string := invert new_vocab |}.

(** *** The loops of the canonicalisation, one by one *)

(** The strings that [create_engine_vocabulary] canonicalises. *)
Definition whitespace : list string := [" "; NL; TAB; NL +:+ NL].

(** The body of the first loop of [_get_original_whitespace_characters]. *)
Definition register_char (tokenizer : Tokenizer) (id2tokens : list (Z * string))
    (old : list (string * string)) (char : string) : outcome (list (string * string)) :=
  match encode tokenizer char with
  | [char_id] =>
      match Dict.get char_id id2tokens with
      | None => Raise KeyError
      | Some char_token =>
          if decide (char_token ≠ char) then Ok (Dict.set char_token char old)
          else Ok old
      end
  | _ => Ok old
  end.

(** The dictionary [old_char_to_new_char] that the first loop builds. *)
Definition old_char_to_new_char
    (tokenizer : Tokenizer) (vocab : list (string * Z)) (chars : list string)
    : outcome (list (string * string)) :=
  for_acc (register_char tokenizer (invert vocab)) [] chars.

(** The body of the second loop. *)
Definition rewrite_entry (replacements : list (string * string))
    (new_vocab : list (string * Z)) (kv : string * Z) : outcome (list (string * Z)) :=
  new_k ← _multiple_replace replacements kv.1;
  Ok (Dict.set new_k kv.2 new_vocab).



(** ** integrations/transformers.py: the logits processor *)

(** A logit is a floating-point number; [float("-inf")] and [0.0]. *)
Definition logit : Type := spec_float.
Definition neg_inf : logit := S754_infinity true.
Definition zero : logit := S754_zero false.

(** A two-dimensional tensor: [shape[0]] is the number of rows, [shape[1]]
    the length of each of them. *)
Record Tensor (A : Type) : Type := {
  shape1 : nat;
  rows : list (list A)
}.
Arguments shape1 {A} t.
Arguments rows {A} t.

Definition shape0 {A} (t : Tensor A) : nat := length (rows t).

(** Modelled from the spec: [EngineGenerationConfig] (module [config], not
    among the sources), the per-lane configuration with its two flags and
    their defaults, false and true. *)
Record EngineGenerationConfig : Type := {
  reset_on_completion : bool;
  read_prompt : bool
}.

Definition EngineGenerationConfig_default : EngineGenerationConfig :=
  {| reset_on_completion := false; read_prompt := true |}.

(** What [mask_logits] hands back: the row it was given, mutated in place,
    or a replacement row. *)
Inductive masked : Type :=
  | InPlace (row : list logit)
  | Replacement (row : list logit).

(** Modelled from the spec: [Formatter] (module [formatter], not among the
    sources), the compiled grammar state machine with its five operations.
    [accept_token] fails on a token that the grammar cannot accept. *)
Class Formatter (F : Type) : Type := {
  accept_token : F → Z → option F;
  reset : F → F;
  is_completed : F → bool;
  compute_allowed_tokens : F → F;
  mask_logits : F → list logit → F * masked
}.

(** The calls that the processor makes on a formatter; an event is a call
    with the lane for which it is made. *)
Inductive call : Type :=
  | CIsCompleted
  | CReset
  | CAcceptToken (token : Z)
  | CComputeAllowedTokens
  | CMaskLogits.

Definition event : Type := nat * call.

(** Formatter objects are referred to by handles: two lanes with the same
    handle share one object. *)
Definition handle : Type := nat.

(** The fields of the processor that [__call__] only reads. *)
Record FormattersLogitsProcessor : Type := {
  _formatters : list handle;
  _eos_token_id : Z;
  configs : list EngineGenerationConfig
}.

(** [FormattersLogitsProcessor.__init__]. *)
Definition FormattersLogitsProcessor_init
    (formatters : list handle) (eos_token_id : Z)
    (configs : option (list EngineGenerationConfig)) : outcome FormattersLogitsProcessor :=
  let configs :=
    match configs with
    | None => map (λ _, EngineGenerationConfig_default) formatters
    | Some configs => configs
    end in
  if decide (length configs = length formatters)
  then Ok {| _formatters := formatters; _eos_token_id := eos_token_id; configs := configs |}
  else Raise AssertionError.

Section Processor.
Context {F : Type} `{Formatter F}.

(** What [__call__] mutates: the formatter objects, the field
    [_last_input_id_length] of the processor, and the score tensor. *)
Record state : Type := {
  formatter_at : handle → F;
  _last_input_id_length : option nat;
  scores : Tensor logit
}.

(** A computation returns the state it leaves, the calls it made on the
    formatters, and a value or the exception that stopped it. *)
Definition M (A : Type) : Type := state → state * list event * outcome A.

#[global] Instance M_ret : MRet M := λ A a st, (st, [], Ok a).
#[global] Instance M_bind : MBind M := λ A B f m st,
  match m st with
  | (st1, evs1, Ok a) => let '(st2, evs2, o) := f a st1 in (st2, evs1 ++ evs2, o)
  | (st1, evs1, Raise e) => (st1, evs1, Raise e)
  end.

Definition raise {A} (e : exn) : M A := λ st, (st, [], Raise e).

Definition assert_ (b : bool) : M unit :=
  if b then mret () else raise AssertionError.

(** An [if] without [else]. *)
Definition when (b : bool) (m : M unit) : M unit :=
  if b then m else mret ().

Fixpoint for_each {A} (body : A → M unit) (l : list A) : M unit :=
  match l with
  | [] => mret ()
  | a :: rest => body a ;; for_each body rest
  end.

(** [enumerate(l, start)] and [enumerate(l)]. *)
Fixpoint enumerate_from {A} (start : nat) (l : list A) : list (nat * A) :=
  match l with
  | [] => []
  | a :: rest => (start, a) :: enumerate_from (S start) rest
  end.

Definition enumerate {A} (l : list A) : list (nat * A) := enumerate_from 0 l.

(** *** The fields *)

Definition get_last_input_id_length : M (option nat) :=
  λ st, (st, [], Ok (_last_input_id_length st)).

Definition set_last_input_id_length (n : nat) : M unit :=
  λ st, ({| formatter_at := formatter_at st; _last_input_id_length := Some n;
            scores := scores st |}, [], Ok ()).

Definition get_scores : M (Tensor logit) := λ st, (st, [], Ok (scores st)).

Definition put_rows (rs : list (list logit)) (st : state) : state :=
  {| formatter_at := formatter_at st;
     _last_input_id_length := _last_input_id_length st;
     scores := {| shape1 := shape1 (scores st); rows := rs |} |}.

Definition put_formatter (h : handle) (f : F) (st : state) : state :=
  {| formatter_at := <[h := f]> (formatter_at st);
     _last_input_id_length := _last_input_id_length st;
     scores := scores st |}.

(** *** The calls on a formatter *)

Definition fmt_is_completed (lane : nat) (h : handle) : M bool :=
  λ st, (st, [(lane, CIsCompleted)], Ok (is_completed (formatter_at st h))).

Definition fmt_reset (lane : nat) (h : handle) : M unit :=
  λ st, (put_formatter h (reset (formatter_at st h)) st, [(lane, CReset)], Ok ()).

Definition fmt_accept_token (lane : nat) (h : handle) (token : Z) : M unit :=
  λ st,
    match accept_token (formatter_at st h) token with
    | Some f => (put_formatter h f st, [(lane, CAcceptToken token)], Ok ())
    | None => (st, [(lane, CAcceptToken token)], Raise FormatterError)
    end.

Definition fmt_compute_allowed_tokens (lane : nat) (h : handle) : M unit :=
  λ st, (put_formatter h (compute_allowed_tokens (formatter_at st h)) st,
         [(lane, CComputeAllowedTokens)], Ok ()).

(** *** Indexing the score tensor *)

(** A Python index into a dimension of size [n]: negative indices count
    from the end, indices out of range raise. *)
Definition index (n : nat) (k : Z) : option nat :=
  if decide (0 ≤ k < Z.of_nat n) then Some (Z.to_nat k)
  else if decide (- Z.of_nat n ≤ k < 0) then Some (Z.to_nat (Z.of_nat n + k))
  else None.

(** [score = scores[i, :]]. *)
Definition scores_row (i : nat) : M (list logit) :=
  λ st, match rows (scores st) !! i with
        | Some row => (st, [], Ok row)
        | None => (st, [], Raise IndexError)
        end.

(** [scores[i, :] = x]. *)
Definition scores_fill_row (i : nat) (x : logit) : M unit :=
  λ st, if decide (i < shape0 (scores st))%nat
        then (put_rows (<[i := replicate (shape1 (scores st)) x]> (rows (scores st))) st,
              [], Ok ())
        else (st, [], Raise IndexError).

(** [scores[i, j] = x]. *)
Definition scores_set (i : nat) (j : Z) (x : logit) : M unit :=
  λ st, match rows (scores st) !! i, index (shape1 (scores st)) j with
        | Some row, Some k => (put_rows (<[i := <[k := x]> row]> (rows (scores st))) st,
                               [], Ok ())
        | _, _ => (st, [], Raise IndexError)
        end.

(** [scores[i, :] = new_score]: a row of one element is broadcast, any
    other length than [shape[1]] is refused. *)
Definition scores_assign_row (i : nat) (new_score : list logit) : M unit :=
  λ st, let V := shape1 (scores st) in
        if decide (i < shape0 (scores st))%nat then
          if decide (length new_score = V)
          then (put_rows (<[i := new_score]> (rows (scores st))) st, [], Ok ())
          else match new_score with
               | [x] => (put_rows (<[i := replicate V x]> (rows (scores st))) st, [], Ok ())
               | _ => (st, [], Raise RuntimeError)
               end
        else (st, [], Raise IndexError).

(** [new_score = formatter.mask_logits(score)] where [score] is the view
    of row [i]: a mutation in place shows in the tensor; the result says
    whether [new_score] is [score] itself. *)
Definition fmt_mask_logits (lane : nat) (h : handle) (i : nat) (score : list logit)
    : M (option (list logit)) :=
  λ st,
    let '(f, r) := mask_logits (formatter_at st h) score in
    let st := put_formatter h f st in
    match r with
    | InPlace row => (put_rows (<[i := row]> (rows (scores st))) st, [(lane, CMaskLogits)], Ok None)
    | Replacement row => (st, [(lane, CMaskLogits)], Ok (Some row))
    end.

(** [input_ids[:, -1]]. *)
Definition last_column (input_ids : Tensor Z) : M (list Z) :=
  match shape1 input_ids, mapM list.last (rows input_ids) with
  | S _, Some column => mret column
  | _, _ => raise IndexError
  end.

(** *** [__call__] *)

(** The body of the loop of the first iteration. *)
Definition first_iteration_body (item : nat * (handle * EngineGenerationConfig * list Z))
    : M unit :=
  let '(lane, (formatter, config, prompt)) := item in
  when (reset_on_completion config)
    (completed ← fmt_is_completed lane formatter;
     when completed (fmt_reset lane formatter));;
  when (read_prompt config)
    (for_each (fmt_accept_token lane formatter) prompt).

(** The body of the loop of a later iteration. *)
Definition later_iteration_body (eos_token_id : Z) (item : nat * (handle * Z)) : M unit :=
  let '(lane, (formatter, input_id)) := item in
  when (bool_decide (input_id ≠ eos_token_id))
    (fmt_accept_token lane formatter input_id).

(** The assertions and the branch on [_last_input_id_length]: the update
    of the formatters. *)
Definition update_formatters (self : FormattersLogitsProcessor) (input_ids : Tensor Z)
    : M unit :=
  assert_ (bool_decide (shape0 input_ids = length (_formatters self)));;
  last ← get_last_input_id_length;
  match last with
  | None =>
      set_last_input_id_length (shape1 input_ids);;
      for_each first_iteration_body
        (enumerate (zip (zip (_formatters self) (configs self)) (rows input_ids)))
  | Some n =>
      assert_ (bool_decide (shape1 input_ids = n + 1)%nat);;
      set_last_input_id_length (n + 1);;
      column ← last_column input_ids;
      for_each (later_iteration_body (_eos_token_id self))
        (enumerate (zip (_formatters self) column))
  end.

(** The body of the loop over [enumerate(self._formatters)]. *)
Definition mask_body (eos_token_id : Z) (item : nat * handle) : M unit :=
  let '(i, formatter) := item in
  completed ← fmt_is_completed i formatter;
  if completed : bool
  then scores_fill_row i neg_inf;;
       scores_set i eos_token_id zero
  else fmt_compute_allowed_tokens i formatter;;
       score ← scores_row i;
       new_score ← fmt_mask_logits i formatter i score;
       match new_score with
       | Some new_score => scores_assign_row i new_score
       | None => mret ()
       end.

Definition mask_scores (self : FormattersLogitsProcessor) : M unit :=
  for_each (mask_body (_eos_token_id self)) (enumerate (_formatters self)).

Definition __call__ (self : FormattersLogitsProcessor) (input_ids : Tensor Z)
    : M (Tensor logit) :=
  update_formatters self input_ids;;
  mask_scores self;;
  get_scores.

End Processor.

Arguments state : clear implicits.
Arguments M : clear implicits.


(** ** Notions used in the statements *)

(** [sub] occurs in [s] after the prefix [pre] and before [suf]. *)
Definition occurs_at (s sub pre suf : string) : Prop := s = pre +:+ sub +:+ suf.

(** The occurrence after [pre] is the leftmost one. *)
Definition leftmost (s sub pre : string) : Prop :=
  ∀ pre' suf', occurs_at s sub pre' suf' → (String.length pre ≤ String.length pre')%nat.

(** The first present result of a list of results, in list order. *)
Fixpoint first_present {A} (l : list (option A)) : option A :=
  match l with
  | [] => None
  | Some a :: _ => Some a
  | None :: rest => first_present rest
  end.

(** The alternation [ref_1 | ref_2 | ...] of a rule's right-hand side. *)
Definition alternation (refs : list string) : string :=
  match refs with
  | [] => ""
  | r :: rest => r +:+ String.concat "" (map (λ x, " | " +:+ x) rest)
  end.

Definition absent_on (input_str : string) (e : Extractor) : Prop :=
  extract e input_str = None.

(** The references of the sub-extractors that [extract] invokes, in the
    order of the invocations. *)
Definition invoked_references (self : ChoiceExtractor) (input_str : string) : list string :=
  omap (λ i, kbnf_reference <$> choices self !! i) (ChoiceExtractor_invoked self input_str).


Section Observations.
Context {F : Type}.
Implicit Types st : state F.
Implicit Types evs : list event.

(** The calls that a run made for one lane. *)
Definition lane_calls (lane : nat) evs : list call :=
  (filter (λ ev : event, ev.1 = lane) evs).*2.

(** The calls that change a state machine. *)
Definition is_update (c : call) : bool :=
  match c with
  | CReset | CAcceptToken _ => true
  | _ => false
  end.

Definition updates (cs : list call) : list call := List.filter is_update cs.

(** The calls of the masking: [compute_allowed_tokens] and [mask_logits]. *)
Definition is_masking (c : call) : bool :=
  match c with
  | CComputeAllowedTokens | CMaskLogits => true
  | _ => false
  end.

(** The row of a completed lane: impossible everywhere, neutral at the end
    of sequence. *)
Definition eos_row (V : nat) (k : nat) : list logit := <[k := zero]> (replicate V neg_inf).

(** The row of [lane] in the scores [r] is negative infinity at every
    position but that of the token [eos], where it is 0.0. *)
Definition completed_row (r : Tensor logit) (eos : Z) (lane : nat) : Prop :=
  ∃ k row,
    index (shape1 r) eos = Some k
    ∧ (0 ≤ eos → Z.of_nat k = eos)
    ∧ rows r !! lane = Some row
    ∧ length row = shape1 r
    ∧ ∀ j, (j < shape1 r)%nat →
        row !! j = Some (if decide (j = k) then zero else neg_inf).

(** The state in which the loop of [update_formatters] starts. *)
Definition with_length (n : nat) st : state F :=
  {| formatter_at := formatter_at st; _last_input_id_length := Some n;
     scores := scores st |}.

(** What lane [i] with formatter [h] sees of a state. *)
Definition view (h : handle) (i : nat) st : F * option (list logit) * nat :=
  (formatter_at st h, rows (scores st) !! i, shape1 (scores st)).

(** [st'] differs from [st] at most in the formatter [h] and the row [i]
    of the scores. *)
Definition outside (h : handle) (i : nat) st st' : Prop :=
  (∀ h', h' ≠ h → formatter_at st' h' = formatter_at st h')
  ∧ (∀ i', i' ≠ i → rows (scores st') !! i' = rows (scores st) !! i')
  ∧ shape1 (scores st') = shape1 (scores st)
  ∧ shape0 (scores st') = shape0 (scores st)
  ∧ _last_input_id_length st' = _last_input_id_length st.

(** A computation of lane [i] with formatter [h]: its events are those of
    lane [i], and it touches nothing but [h] and the row [i]. *)
Definition confined (h : handle) (i : nat) {A} (m : M F A) : Prop :=
  ∀ st, Forall (λ ev : event, ev.1 = i) (m st).1.2 ∧ outside h i st (m st).1.1.

(** Every call that a computation makes satisfies [P]. *)
Definition emits (P : call → Prop) {A} (m : M F A) : Prop :=
  ∀ st, Forall (λ ev : event, P ev.2) (m st).1.2.

(** Two computations, one for the lane [i] with formatter [h] and one for
    the lane [i'] with formatter [h'], do the same when the two lanes see
    the same: they leave the lanes seeing the same, make the same calls
    and have the same outcome. *)
Definition alike (h : handle) (i : nat) (h' : handle) (i' : nat) {A}
    (m m' : M F A) : Prop :=
  ∀ st st', view h i st = view h' i' st' →
    view h i (m st).1.1 = view h' i' (m' st').1.1
    ∧ (m st).1.2.*2 = (m' st').1.2.*2
    ∧ (m st).2 = (m' st').2.

End Observations.

(** ** Notions for the vocabulary and for the state of a call *)

(** Every single-token encoding of [char] is an id of the vocabulary. *)
Definition single_token_known (tokenizer : Tokenizer) (vocab : list (string * Z))
    (char : string) : Prop :=
  ∀ char_id, encode tokenizer char = [char_id] → char_id ∈ vocab.*2.

(** The spelling of [char] in the vocabulary, when the tokenizer encodes
    [char] as one token and the vocabulary spells that token otherwise. *)
Definition spelling (tokenizer : Tokenizer) (vocab : list (string * Z))
    (char : string) : option string :=
  match encode tokenizer char with
  | [char_id] =>
      match Dict.get char_id (invert vocab) with
      | Some char_token => if decide (char_token ≠ char) then Some char_token else None
      | None => None
      end
  | _ => None
  end.

(** [char] is encoded as one token, which the vocabulary spells otherwise. *)
Definition respelled (tokenizer : Tokenizer) (vocab : list (string * Z))
    (char : string) : Prop :=
  is_Some (spelling tokenizer vocab char).

(** The processor with its first [k] lanes only. *)
Definition first_lanes (k : nat) (self : FormattersLogitsProcessor) : FormattersLogitsProcessor :=
  {| _formatters := take k (_formatters self);
     _eos_token_id := _eos_token_id self;
     configs := take k (configs self) |}.

Section MoreObservations.
Context {F : Type} `{Formatter F}.
Implicit Types st : state F.

(** A computation leaves the score tensor as it is. *)
Definition keeps_scores {A} (m : M F A) : Prop :=
  ∀ st, scores (m st).1.1 = scores st.

(** The preconditions that [__call__] asserts. *)
Definition preconditions (self : FormattersLogitsProcessor) (input_ids : Tensor Z) st : Prop :=
  shape0 input_ids = length (_formatters self)
  ∧ match _last_input_id_length st with
    | None => True
    | Some n => shape1 input_ids = (n + 1)%nat
    end.

(** The formatter after it accepted the tokens in order, if it accepts them all. *)
Definition accept_all (f : F) (tokens : list Z) : option F :=
  foldl (λ o token, f ← o; accept_token f token) (Some f) tokens.

(** The tokens that a later call feeds to the formatter object [h]: the
    last tokens, other than the end of sequence, of the lanes that hold
    [h], in the order of the lanes. *)
Definition fed_tokens (eos_token_id : Z) (h : handle) (lanes : list (handle * Z)) : list Z :=
  (filter (λ x : handle * Z, x.1 = h ∧ x.2 ≠ eos_token_id) lanes).*2.

(** [scores[i, :] = new_score], as a value: a row of one element is
    broadcast. *)
Definition broadcast (V : nat) (new_score : list logit) : list logit :=
  if decide (length new_score = V) then new_score
  else match new_score with
       | [x] => replicate V x
       | _ => new_score
       end.

(** The row that the tensor holds after [mask_logits] and the write-back. *)
Definition masked_row (V : nat) (m : masked) : list logit :=
  match m with
  | InPlace new_score => new_score
  | Replacement new_score => broadcast V new_score
  end.
End MoreObservations.



(** ** Examples of extractors and tokenizers *)

(** [repr] of a string without quotes, backslashes or non-printable
    characters: the string between single quotes. *)
Definition repr_plain (s : string) : string := "'" +:+ s +:+ "'".

Definition yes_or_no : ChoiceExtractor :=
  ChoiceExtractor_init
    [LiteralExtractor repr_plain "no"; LiteralExtractor repr_plain "yes";
     LiteralExtractor repr_plain "y"; LiteralExtractor repr_plain "say"]
    (Some "answer") "choice".

(** A byte-level tokenizer in the style of GPT-2: the space is spelled [G]
    and the newline [C]. *)
Definition spelled_tokenizer : Tokenizer :=
  {| get_vocab := [("G", 0); ("C", 1); ("a", 2); ("Ga", 3); ("CC", 4); ("aGCa", 5)];
     encode := λ s, if decide (s = " ") then [0]
                    else if decide (s = NL) then [1]
                    else if decide (s = NL +:+ NL) then [4]
                    else [];
     eos_token_id := 6 |}.

(** A tokenizer whose whitespace tokens are the literal characters. *)
Definition literal_tokenizer : Tokenizer :=
  {| get_vocab := [(" ", 0); (NL, 1); (TAB, 2); (NL +:+ NL, 3); ("a", 4)];
     encode := λ s, match Dict.get s [(" ", 0); (NL, 1); (TAB, 2); (NL +:+ NL, 3); ("a", 4)] with
                    | Some i => [i]
                    | None => []
                    end;
     eos_token_id := 5 |}.


(** ** A small formatter for the examples *)

(** The machine records the tokens it accepted and is completed by the
    token 3; the token 1 is not in its grammar: it rejects it, and masks
    position 1 of a row, in place on rows of even length and by a
    replacement otherwise. *)
Record toy : Type := {
  seen : list Z;
  done : bool
}.

Definition toy_mask (row : list logit) : list logit :=
  imap (λ k x, if decide (k = 1%nat) then neg_inf else x) row.

#[global] Instance toy_formatter : Formatter toy := {|
  accept_token f token :=
    if done f || (token =? 1) then None
    else Some {| seen := seen f ++ [token]; done := token =? 3 |};
  reset f := {| seen := []; done := false |};
  is_completed f := done f;
  compute_allowed_tokens f := f;
  mask_logits f row :=
    (f, if Nat.even (length row) then InPlace (toy_mask row) else Replacement (toy_mask row))
|}.

Definition fresh : toy := {| seen := []; done := false |}.
Definition finished : toy := {| seen := [3]; done := true |}.

Definition one : logit := S754_finite false 4503599627370496 (-52).

(** Two lanes with the formatters 0 and 1, end of sequence 2, a vocabulary
    of four tokens. *)
Definition two_lanes (config : EngineGenerationConfig) : FormattersLogitsProcessor :=
  {| _formatters := [0; 1]%nat; _eos_token_id := 2; configs := [config; config] |}.

Definition start (f0 f1 : toy) (scores : list (list logit)) : state toy :=
  {| formatter_at := λ h, if decide (h = 0%nat) then f0 else f1;
     _last_input_id_length := None;
     scores := {| shape1 := 4; rows := scores |} |}.

Definition ones : list (list logit) := [replicate 4 one; replicate 4 one].

(** The state, events and outcome of a run, with the formatters 0 and 1
    read off. *)
Definition observe {A} (r : state toy * list event * outcome A)
    : (toy * toy * option nat * list (list logit)) * list event * outcome A :=
  let '(st, evs, o) := r in
  ((formatter_at st 0%nat, formatter_at st 1%nat, _last_input_id_length st,
    rows (scores st)), evs, o).


(** ** The scenarios *)

Definition no_replay : EngineGenerationConfig :=
  {| reset_on_completion := true; read_prompt := false |}.

Definition replay : EngineGenerationConfig :=
  {| reset_on_completion := true; read_prompt := true |}.

(** The prompt of five tokens of both lanes, the history after one more
    token, and a history with two more tokens. *)
Definition prompts : Tensor Z :=
  {| shape1 := 5; rows := [[0; 0; 0; 0; 0]; [0; 0; 0; 0; 0]] |}.

Definition one_more : Tensor Z :=
  {| shape1 := 6; rows := [[0; 0; 0; 0; 0; 3]; [0; 0; 0; 0; 0; 0]] |}.

Definition two_more : Tensor Z :=
  {| shape1 := 7; rows := [[0; 0; 0; 0; 0; 3; 0]; [0; 0; 0; 0; 0; 0; 0]] |}.

(** The state that the first call on [prompts] leaves. *)
Definition after_prompts : state toy :=
  (__call__ (two_lanes no_replay) prompts (start finished fresh ones)).1.1.

(** Two prompts of one token that differ in the second lane only: the
    token 1 is not in the grammar of the machine. *)
Definition rejected_prompt : Tensor Z := {| shape1 := 1; rows := [[0]; [1]] |}.
Definition accepted_prompt : Tensor Z := {| shape1 := 1; rows := [[0]; [0]] |}.

(** The two lanes in the other order. *)
Definition two_lanes_swapped (config : EngineGenerationConfig) : FormattersLogitsProcessor :=
  {| _formatters := [1; 0]%nat; _eos_token_id := 2; configs := [config; config] |}.

Definition swapped_prompt : Tensor Z := {| shape1 := 1; rows := [[3]; [0]] |}.

(** [rejected_prompt] for the lanes in the other order. *)
Definition rejected_prompt_swapped : Tensor Z := {| shape1 := 1; rows := [[1]; [0]] |}.

(** Scores with one row more, and with one row fewer, than there are
    lanes. *)
Definition three_rows : list (list logit) := [replicate 4 one; replicate 4 one; replicate 4 one].
Definition one_row : list (list logit) := [replicate 4 one].

(** The second call of scenario A. *)
Definition second_call : state toy * list event * outcome (Tensor logit) :=
  __call__ (two_lanes no_replay) one_more after_prompts.


(** ** More tokenizers, and lanes that share a formatter *)

(** A tokenizer in which the spelling [G] of the space collides with a
    token that is the space itself. *)
Definition colliding_tokenizer : Tokenizer :=
  {| get_vocab := [("G", 0); (" ", 1); ("a", 2)];
     encode := λ s, if decide (s = " ") then [0] else [];
     eos_token_id := 3 |}.

(** A tokenizer that normalises whitespace: the space and the tab are both
    encoded as the token spelled [_]. *)
Definition normalising_tokenizer : Tokenizer :=
  {| get_vocab := [("_", 0); ("a_b", 1)];
     encode := λ s, if decide (s = " ") then [0]
                    else if decide (s = TAB) then [0]
                    else [];
     eos_token_id := 2 |}.

(** The replacements of [spelled_tokenizer]. *)
Definition spelled_replacements : list (string * string) :=
  [("G", " "); ("C", NL); ("CC", NL +:+ NL)].

(** Two lanes that share the formatter object 0. *)
Definition shared_lanes : FormattersLogitsProcessor :=
  {| _formatters := [0; 0]%nat; _eos_token_id := 2;
     configs := [EngineGenerationConfig_default; EngineGenerationConfig_default] |}.

(** A history of two tokens after a first call on one token. *)
Definition shared_history : Tensor Z := {| shape1 := 2; rows := [[0; 0]; [0; 3]] |}.

(** The state after a first call on one token, before any token is fed. *)
Definition after_one_token : state toy :=
  with_length 1 (start fresh fresh ones).

(** Two lanes whose end-of-sequence id, 9, is not a position of a row of
    four scores; neither the reset nor the prompt is asked for. *)
Definition idle : EngineGenerationConfig :=
  {| reset_on_completion := false; read_prompt := false |}.

Definition far_eos_lanes : FormattersLogitsProcessor :=
  {| _formatters := [0; 1]%nat; _eos_token_id := 9; configs := [idle; idle] |}.


Example find_example : Str.find "say: yes or yes" "yes" = 5.
Proof. reflexivity. Qed.

Example literal_example :
  LiteralExtractor_extract "yes" "say: yes or yes" = Some (" or yes", VStr "yes").
Proof. reflexivity. Qed.

Example literal_absent_example : LiteralExtractor_extract "no" "say: yes" = None.
Proof. reflexivity. Qed.

(** ** Facts about strings *)

Section StringFacts.
Implicit Types s p t u sub pre suf : string.

Lemma app_nil_str s : "" +:+ s = s.
Proof. reflexivity. Qed.

Lemma app_cons_str a s t : String a s +:+ t = String a (s +:+ t).
Proof. reflexivity. Qed.

Lemma app_assoc_str s t u : (s +:+ t) +:+ u = s +:+ t +:+ u.
Proof.
  induction s as [|a s IH]; [done |].
  by rewrite !app_cons_str, IH.
Qed.

Lemma app_empty_r s : s +:+ "" = s.
Proof. induction s as [|a s IH]; [done | by rewrite app_cons_str, IH]. Qed.

Lemma length_app_str s t :
  String.length (s +:+ t) = (String.length s + String.length t)%nat.
Proof. induction s as [|a s IH]; [done | by rewrite app_cons_str; simpl; rewrite IH]. Qed.

Lemma startswith_app s p : Str.startswith (p +:+ s) p = true.
Proof.
  induction p as [|a p IH]; [reflexivity |].
  rewrite app_cons_str. simpl. destruct (decide (a = a)); [apply IH | done].
Qed.

Lemma startswith_inv s p : Str.startswith s p = true → ∃ t, s = p +:+ t.
Proof.
  revert s. induction p as [|a p IH]; intros s H.
  - by exists s.
  - destruct s as [|b s]; simpl in H; [done |].
    destruct (decide (a = b)) as [->|]; [| done].
    destruct (IH _ H) as [t ->]. by exists t.
Qed.

Lemma drop_app s t : Str.drop (String.length s) (s +:+ t) = t.
Proof. induction s as [|a s IH]; [by destruct t | by rewrite app_cons_str]. Qed.



(** [str.find] returns -1 when there is no occurrence, and otherwise the
    offset of the leftmost one. *)
Lemma find_spec s sub :
  (Str.find s sub = -1 ∧ ∀ pre suf, ¬ occurs_at s sub pre suf)
  ∨ (∃ pre suf, occurs_at s sub pre suf ∧ leftmost s sub pre
                ∧ Str.find s sub = Str.len pre).
Proof.
  unfold leftmost, occurs_at, Str.len.
  induction s as [|a s IH]; simpl.
  - destruct (Str.startswith "" sub) eqn:Hp.
    + right. apply startswith_inv in Hp as [t Ht].
      exists "", t. split_and!; [done | intros; simpl; lia | done].
    + left. split; [done |]. intros pre suf Hs.
      destruct pre; [| done]. rewrite app_nil_str in Hs.
      rewrite Hs, startswith_app in Hp. done.
  - destruct (Str.startswith (String a s) sub) eqn:Hp.
    + right. apply startswith_inv in Hp as [t Ht].
      exists "", t. split_and!; [done | intros; simpl; lia | done].
    + assert (Hnil : ∀ suf, String a s ≠ sub +:+ suf).
      { intros suf Hs. rewrite Hs, startswith_app in Hp. done. }
      destruct IH as [[Hf Hno] | (pre & suf & Hs & Hleft & Hf)].
      * left. rewrite Hf. split; [done |]. intros pre suf Hs.
        destruct pre as [|b pre]; [by eapply Hnil |].
        rewrite app_cons_str in Hs. injection Hs as -> Hs. by eapply Hno.
      * right. exists (String a pre), suf. rewrite Hf.
        split_and!.
        -- by rewrite app_cons_str, Hs.
        -- intros pre' suf' Hs'. destruct pre' as [|b pre'].
           ++ by eapply Hnil in Hs'.
           ++ rewrite app_cons_str in Hs'. injection Hs' as -> Hs'.
              apply Hleft in Hs'. simpl. lia.
        -- simpl String.length.
           destruct (Z.of_nat (String.length pre) =? -1) eqn:E; lia.
Qed.
End StringFacts.

(** ** The extractors *)




Lemma slice_from_app pre sub suf :
  Str.slice_from (pre +:+ sub +:+ suf) (Str.len pre + Str.len sub) = suf.
Proof.
  unfold Str.slice_from, Str.len.
  rewrite (proj2 (Z.leb_le 0 _)) by lia.
  rewrite <- Nat2Z.inj_add, Nat2Z.id, <- length_app_str, <- app_assoc_str.
  apply drop_app.
Qed.

(** C6. [LiteralExtractor(L).extract(S)]: when [L] occurs in [S] the result
    is present, and it is the text strictly after the leftmost occurrence
    of [L] (wherever it starts, the search is not anchored at the start of
    [S]) paired with [L] itself; when [L] does not occur in [S] the result
    is absent. *)
Theorem LiteralExtractor_extract_leftmost (L S : string) :
  (∀ pre suf, occurs_at S L pre suf → leftmost S L pre →
     LiteralExtractor_extract L S = Some (suf, VStr L))
  ∧ ((∃ pre suf, occurs_at S L pre suf) →
     ∃ pre suf, occurs_at S L pre suf ∧ leftmost S L pre
                ∧ LiteralExtractor_extract L S = Some (suf, VStr L))
  ∧ ((∀ pre suf, ¬ occurs_at S L pre suf) → LiteralExtractor_extract L S = None).
Proof.
  assert (Hfound : ∀ pre suf, occurs_at S L pre suf → leftmost S L pre →
            LiteralExtractor_extract L S = Some (suf, VStr L)).
  { intros pre suf Hocc Hleft. unfold LiteralExtractor_extract.
    destruct (find_spec S L) as [[_ Hno] | (pre0 & suf0 & Hocc0 & Hleft0 & Hf)].
    - by destruct (Hno pre suf).
    - assert (Hlen : String.length pre0 = String.length pre).
      { apply Nat.le_antisymm; [by eapply Hleft0 | by eapply Hleft]. }
      cbv zeta. rewrite Hf.
      replace (Str.len pre0) with (Str.len pre) by (unfold Str.len; lia).
      rewrite (proj2 (Z.eqb_neq _ (-1))) by (unfold Str.len; lia).
      unfold occurs_at in Hocc. rewrite Hocc at 1.
      by rewrite (slice_from_app pre L suf). }
  split_and!; [done | |].
  - intros (pre1 & suf1 & H1).
    destruct (find_spec S L) as [[_ Hno] | (pre & suf & Hocc & Hleft & _)].
    + exfalso. by eapply Hno.
    + exists pre, suf. eauto.
  - intros Hno. unfold LiteralExtractor_extract.
    destruct (find_spec S L) as [[-> _] | (pre & suf & Hocc & _)]; [done |].
    by destruct (Hno pre suf).
Qed.

(** The literal [yes] in [say: yes or yes]: the text before the leftmost
    occurrence is skipped; the literal [no] is absent from [say: yes]. *)
Lemma LiteralExtractor_extract_leftmost_witness :
  LiteralExtractor_extract "yes" "say: yes or yes" = Some (" or yes", VStr "yes")
  ∧ LiteralExtractor_extract "no" "say: yes" = None.
Proof.
  split.
  - apply (proj1 (LiteralExtractor_extract_leftmost "yes" "say: yes or yes") "say: " " or yes").
    + reflexivity.
    + intros pre' suf' H. unfold occurs_at in H.
      do 5 (destruct pre' as [|? pre']; [discriminate H |
            rewrite app_cons_str in H; injection H as _ H]).
      simpl. lia.
  - apply (proj2 (proj2 (LiteralExtractor_extract_leftmost "no" "say: yes"))).
    intros pre suf H. unfold occurs_at in H.
    do 8 (destruct pre as [|? pre]; [discriminate H |
          rewrite app_cons_str in H; injection H as _ H]).
    destruct pre; discriminate H.
Defined.

Lemma extract_loop_first_present cs k input_str :
  (extract_loop cs k input_str).2 = first_present (map (λ e, extract e input_str) cs).
Proof.
  revert k. induction cs as [|c cs IH]; intros k; simpl; [done |].
  destruct (extract c input_str); [done |].
  specialize (IH (S k)). by destruct (extract_loop cs (S k) input_str).
Qed.

Lemma extract_loop_success pre e post matched k input_str :
  Forall (absent_on input_str) pre →
  extract e input_str = Some matched →
  extract_loop (pre ++ e :: post) k input_str = (seq k (S (length pre)), Some matched).
Proof.
  intros Hpre He. revert k.
  induction Hpre as [|c pre Hc _ IH]; intros k; simpl.
  - by rewrite He.
  - unfold absent_on in Hc. by rewrite Hc, IH.
Qed.

Lemma extract_loop_failure cs k input_str :
  Forall (absent_on input_str) cs →
  extract_loop cs k input_str = (seq k (length cs), None).
Proof.
  intros Hcs. revert k.
  induction Hcs as [|c cs Hc _ IH]; intros k; simpl; [done |].
  unfold absent_on in Hc. by rewrite Hc, IH.
Qed.

(** The invocations of [extract_loop] are consecutive positions from [k]. *)
Lemma extract_loop_invoked cs k input_str :
  ∃ n, (extract_loop cs k input_str).1 = seq k n ∧ (n ≤ length cs)%nat.
Proof.
  revert k. induction cs as [|c cs IH]; intros k; simpl.
  - by exists 0%nat.
  - destruct (extract c input_str).
    + exists 1%nat. simpl. split; [done | lia].
    + destruct (IH (S k)) as (n & Hn & Hle).
      destruct (extract_loop cs (S k) input_str) as [log r]. simpl in *.
      exists (S n). rewrite Hn. simpl. split; [done | lia].
Qed.

(** C7. [ChoiceExtractor.extract(S)] is the result of the first
    sub-extractor, in construction order, whose [extract(S)] is present,
    and is absent when all of them fail.  When the sub-extractor at
    position [length pre] is the first to succeed, exactly the positions
    [0 .. length pre] are invoked, so no sub-extractor after it is, and the
    result is the same for every permutation of the sub-extractors that
    follow it. *)
Theorem ChoiceExtractor_extract_first_success (self : ChoiceExtractor) (input_str : string) :
  ChoiceExtractor_extract self input_str
    = first_present (map (λ e, extract e input_str) (choices self))
  ∧ (∀ pre e post matched,
       choices self = pre ++ e :: post →
       Forall (absent_on input_str) pre →
       extract e input_str = Some matched →
       ChoiceExtractor_extract self input_str = Some matched
       ∧ ChoiceExtractor_invoked self input_str = seq 0 (S (length pre))
       ∧ ∀ post', post ≡ₚ post' →
           ChoiceExtractor_extract
             {| ce_super := ce_super self; choices := pre ++ e :: post' |} input_str
           = Some matched)
  ∧ (Forall (absent_on input_str) (choices self) →
       ChoiceExtractor_extract self input_str = None
       ∧ ChoiceExtractor_invoked self input_str = seq 0 (length (choices self))).
Proof.
  unfold ChoiceExtractor_extract, ChoiceExtractor_invoked.
  split_and!.
  - apply extract_loop_first_present.
  - intros pre e post matched Hcs Hpre He. rewrite Hcs.
    rewrite (extract_loop_success pre e post matched) by done.
    split_and!; [done | done |].
    intros post' _. simpl.
    by rewrite (extract_loop_success pre e post' matched).
  - intros Hall. by rewrite extract_loop_failure.
Qed.



(** On [say yes] the first choice fails and the second succeeds: the third
    and fourth, which would succeed too, are not invoked, in whichever
    order they stand. *)
Lemma ChoiceExtractor_extract_first_success_witness :
  ChoiceExtractor_extract yes_or_no "say yes" = Some ("", VStr "yes")
  ∧ ChoiceExtractor_invoked yes_or_no "say yes" = [0; 1]%nat
  ∧ ChoiceExtractor_extract
      (ChoiceExtractor_init
         [LiteralExtractor repr_plain "no"; LiteralExtractor repr_plain "yes";
          LiteralExtractor repr_plain "say"; LiteralExtractor repr_plain "y"]
         (Some "answer") "choice") "say yes" = Some ("", VStr "yes").
Proof.
  pose proof (proj1 (proj2 (ChoiceExtractor_extract_first_success yes_or_no "say yes"))
                [LiteralExtractor repr_plain "no"] (LiteralExtractor repr_plain "yes")
                [LiteralExtractor repr_plain "y"; LiteralExtractor repr_plain "say"]
                ("", VStr "yes") eq_refl) as H.
  destruct H as (H1 & H2 & H3).
  - repeat constructor.
  - reflexivity.
  - split_and!; [exact H1 | exact H2 |].
    apply (H3 [LiteralExtractor repr_plain "say"; LiteralExtractor repr_plain "y"]).
    apply perm_swap.
Defined.

Lemma concat_sep_join sep x rest :
  String.concat "" (map (λ y, sep +:+ y) (x :: rest)) = sep +:+ Str.join sep (x :: rest).
Proof.
  revert x. induction rest as [|y rest IH]; intros x; [done |].
  change (String.concat "" (map (λ y, sep +:+ y) (x :: y :: rest)))
    with ((sep +:+ x) +:+ "" +:+ String.concat "" (map (λ y, sep +:+ y) (y :: rest))).
  rewrite IH, app_nil_str, app_assoc_str. done.
Qed.

Lemma join_alternation refs : Str.join " | " refs = alternation refs.
Proof.
  destruct refs as [|r [|r' rest]]; [done | |].
  { unfold alternation. simpl. by rewrite app_empty_r. }
  unfold alternation. by rewrite concat_sep_join.
Qed.


Lemma omap_lookup_seq {A B} (f : A → B) (l : list A) k n :
  (k + n ≤ length l)%nat →
  omap (λ i, f <$> l !! i) (seq k n) = take n (drop k (f <$> l)).
Proof.
  revert k. induction n as [|n IH]; intros k Hk; simpl; [done |].
  destruct (lookup_lt_is_Some_2 l k) as [a Ha]; [lia |].
  rewrite Ha. simpl. rewrite IH by lia.
  rewrite (drop_S (f <$> l) (f a) k) by (by rewrite list_lookup_fmap, Ha).
  done.
Qed.

(** C8. The definition that a [ChoiceExtractor] emits is its own reference,
    then [ ::= ], then the references of its sub-extractors in construction
    order separated by [ | ], then [;].  The alternatives stand in the
    order in which [extract] tries the sub-extractors: the references of
    the sub-extractors that [extract] invokes, in invocation order, are an
    initial segment of the alternatives, and all of them when every
    sub-extractor fails. *)
Theorem ChoiceExtractor_kbnf_definition_order (self : ChoiceExtractor) :
  ChoiceExtractor_kbnf_definition self
    = ChoiceExtractor_kbnf_reference self +:+ " ::= "
        +:+ alternation (map kbnf_reference (choices self)) +:+ ";"
  ∧ (∀ input_str,
       invoked_references self input_str
       = take (length (ChoiceExtractor_invoked self input_str))
              (map kbnf_reference (choices self)))
  ∧ (∀ input_str,
       Forall (absent_on input_str) (choices self) →
       invoked_references self input_str = map kbnf_reference (choices self)).
Proof.
  assert (Hseg : ∀ input_str,
            invoked_references self input_str
            = take (length (ChoiceExtractor_invoked self input_str))
                   (map kbnf_reference (choices self))).
  { intros input_str. unfold invoked_references, ChoiceExtractor_invoked.
    destruct (extract_loop_invoked (choices self) 0 input_str) as (n & -> & Hn).
    rewrite omap_lookup_seq by (simpl; lia).
    by rewrite length_seq, drop_0. }
  split_and!; [| done |].
  - unfold ChoiceExtractor_kbnf_definition, ChoiceExtractor_kbnf_reference,
      NonterminalExtractor_kbnf_reference.
    by rewrite join_alternation.
  - intros input_str Hall. rewrite Hseg. unfold ChoiceExtractor_invoked.
    rewrite extract_loop_failure by done. simpl.
    rewrite length_seq. apply firstn_all2. by rewrite length_map.
Qed.

Example yes_or_no_definition :
  ChoiceExtractor_kbnf_definition yes_or_no
  = "choice_answer ::= 'no' | 'yes' | 'y' | 'say';".
Proof. reflexivity. Qed.

Lemma app_inv_head_str (s t u : string) : s +:+ t = s +:+ u → t = u.
Proof.
  induction s as [|a s IH]; [done |].
  rewrite !app_cons_str. intros H. injection H as H. auto.
Qed.

Lemma app_nonempty_neq (s t : string) : t ≠ "" → s ≠ s +:+ t.
Proof.
  intros Ht H. apply (f_equal String.length) in H.
  rewrite length_app_str in H. destruct t; [done | simpl in H; lia].
Qed.

(** C10. The suffixing of nonterminals is not injective across base names:
    the base [a_b] without capture name and the base [a] with capture name
    [b] are distinct bases with the same reference.  Among extractors that
    share one base, the reference determines the capture name. *)
Theorem NonterminalExtractor_reference_collision :
  ("a_b" : string) ≠ "a"
  ∧ NonterminalExtractor_kbnf_reference (NonterminalExtractor_init "a_b" None)
    = NonterminalExtractor_kbnf_reference (NonterminalExtractor_init "a" (Some "b"))
  ∧ (∀ base c1 c2,
       NonterminalExtractor_kbnf_reference (NonterminalExtractor_init base c1)
       = NonterminalExtractor_kbnf_reference (NonterminalExtractor_init base c2) →
       c1 = c2).
Proof.
  split_and!; [done | reflexivity |].
  intros base [c1|] [c2|]; unfold NonterminalExtractor_kbnf_reference; simpl; intros H.
  - by apply app_inv_head_str, app_inv_head_str in H as ->.
  - symmetry in H. by apply app_nonempty_neq in H.
  - by apply app_nonempty_neq in H.
  - done.
Qed.

Example spelled_vocabulary :
  id_to_token_string <$> create_engine_vocabulary spelled_tokenizer
  = Ok [(0, " "); (1, NL); (2, "a"); (3, " a"); (4, NL +:+ NL);
        (5, "a " +:+ NL +:+ "a")].
Proof. reflexivity. Qed.

Example sub_empty_alternative :
  Re.sub ["a"; ""; "b"] (λ k, Ok ("<" +:+ k +:+ ">")) "xab" = Ok "<>x<a><><b><>".
Proof. reflexivity. Qed.

(** With no replacement registered the pattern is the empty group: it
    matches the empty string at the start of any text, and the look-up of
    the empty string in the empty dictionary raises. *)
Lemma _multiple_replace_empty text : _multiple_replace [] text = Raise KeyError.
Proof.
  unfold _multiple_replace, Re.sub. simpl Dict.keys. simpl Re.alternatives.
  destruct text; reflexivity.
Qed.

(** C5, at the tokenizers that need no canonicalisation.  When the
    vocabulary is not empty and each of the four whitespace strings is
    encoded as one token whose vocabulary entry is the string itself, no
    replacement is registered and [create_engine_vocabulary] raises
    [KeyError] instead of returning the vocabulary unchanged. *)
Theorem create_engine_vocabulary_literal_whitespace_raises (tokenizer : Tokenizer) :
  get_vocab tokenizer ≠ [] →
  (∀ char, char ∈ [" "; NL; TAB; NL +:+ NL] →
     ∃ char_id, encode tokenizer char = [char_id]
                ∧ Dict.get char_id (invert (get_vocab tokenizer)) = Some char) →
  create_engine_vocabulary tokenizer = Raise KeyError.
Proof.
  intros Hvocab Hlit.
  unfold create_engine_vocabulary, _get_original_whitespace_characters.
  assert (Hold : ∀ chars old, chars ⊆ [" "; NL; TAB; NL +:+ NL] →
    for_acc (λ old char,
      match encode tokenizer char with
      | [char_id] =>
          match Dict.get char_id (invert (get_vocab tokenizer)) with
          | None => Raise KeyError
          | Some char_token =>
              if decide (char_token ≠ char) then Ok (Dict.set char_token char old)
              else Ok old
          end
      | _ => Ok old
      end) old chars = Ok old).
  { induction chars as [|char chars IH]; intros old Hsub; [done |].
    simpl. destruct (Hlit char) as (char_id & -> & ->).
    - apply Hsub. by left.
    - rewrite decide_False by (by intros []). simpl.
      apply IH. intros x Hx. apply Hsub. by right. }
  rewrite Hold by done. simpl.
  destruct (get_vocab tokenizer) as [|kv vocab]; [done |].
  simpl. by rewrite _multiple_replace_empty.
Qed.

Lemma create_engine_vocabulary_literal_whitespace_raises_witness :
  create_engine_vocabulary literal_tokenizer = Raise KeyError.
Proof.
  apply create_engine_vocabulary_literal_whitespace_raises.
  - discriminate.
  - intros char H.
    repeat (apply elem_of_cons in H as [-> | H]; [eexists; split; reflexivity |]).
    by apply elem_of_nil in H.
Defined.


(** ** Facts about computations *)

Section ProcessorFacts.
Context {F : Type} `{Formatter F}.
Implicit Types st : state F.
Implicit Types evs : list event.

Local Abbreviation confined := (confined (F:=F)).
Local Abbreviation emits := (emits (F:=F)).
Local Abbreviation alike := (alike (F:=F)).

Lemma bind_Ok {A B} (m : M F A) (f : A → M F B) st st' evs b :
  (m ≫= f) st = (st', evs, Ok b) →
  ∃ st1 evs1 a evs2,
    m st = (st1, evs1, Ok a) ∧ f a st1 = (st', evs2, Ok b) ∧ evs = evs1 ++ evs2.
Proof.
  unfold mbind, M_bind. destruct (m st) as [[st1 evs1] [a|e]]; [| done].
  destruct (f a st1) as [[st2 evs2] o] eqn:Hf. intros [= <- <- <-].
  by exists st1, evs1, a, evs2.
Qed.

Lemma bind_run {A B} (m : M F A) (f : A → M F B) st st1 evs1 a :
  m st = (st1, evs1, Ok a) →
  (m ≫= f) st = ((f a st1).1.1, evs1 ++ (f a st1).1.2, (f a st1).2).
Proof.
  intros Hm. unfold mbind, M_bind. rewrite Hm.
  by destruct (f a st1) as [[st2 evs2] o].
Qed.

Lemma bind_Raise {A B} (m : M F A) (f : A → M F B) st st1 evs1 e :
  m st = (st1, evs1, Raise e) → (m ≫= f) st = (st1, evs1, Raise e).
Proof. intros Hm. unfold mbind, M_bind. by rewrite Hm. Qed.


Lemma lane_calls_app lane evs1 evs2 :
  lane_calls lane (evs1 ++ evs2) = lane_calls lane evs1 ++ lane_calls lane evs2.
Proof. unfold lane_calls. by rewrite list.filter_app, fmap_app. Qed.

Lemma lane_calls_own lane evs :
  Forall (λ ev : event, ev.1 = lane) evs → lane_calls lane evs = evs.*2.
Proof.
  unfold lane_calls. induction 1 as [|ev evs Hev _ IH]; [done |].
  rewrite filter_cons_True by done. rewrite !fmap_cons. by f_equal.
Qed.

Lemma lane_calls_other lane evs :
  Forall (λ ev : event, ev.1 ≠ lane) evs → lane_calls lane evs = [].
Proof.
  unfold lane_calls. induction 1 as [|ev evs Hev _ IH]; [done |].
  by rewrite filter_cons_False.
Qed.


Lemma outside_refl h i st : outside h i st st.
Proof. by repeat split. Qed.

Lemma outside_trans h i st1 st2 st3 :
  outside h i st1 st2 → outside h i st2 st3 → outside h i st1 st3.
Proof.
  intros (Ha1&Ha2&?&?&?) (Hb1&Hb2&?&?&?). repeat split; try congruence.
  - intros h' Hh. rewrite Hb1 by done. auto.
  - intros i' Hi. rewrite Hb2 by done. auto.
Qed.


Lemma confined_ret h i {A} (a : A) : confined h i (mret a : M F A).
Proof. intros st. split; [constructor | apply outside_refl]. Qed.

Lemma confined_bind h i {A B} (m : M F A) (f : A → M F B) :
  confined h i m → (∀ a, confined h i (f a)) → confined h i (m ≫= f).
Proof.
  intros Hm Hf st. destruct (Hm st) as [Hev Hout].
  destruct (m st) as [[st1 evs1] [a|e]] eqn:Em.
  - rewrite (bind_run _ _ _ _ _ _ Em). destruct (Hf a st1) as [Hev' Hout'].
    simpl in *. split; [by apply list.Forall_app | by eapply outside_trans].
  - by rewrite (bind_Raise _ _ _ _ _ _ Em).
Qed.

Lemma confined_when h i b (m : M F unit) : confined h i m → confined h i (when b m).
Proof. destruct b; [done | intros _; apply confined_ret]. Qed.

Lemma confined_for_each h i {A} (body : A → M F unit) l :
  (∀ a, confined h i (body a)) → confined h i (for_each body l).
Proof.
  intros Hbody. induction l as [|a l IH]; simpl.
  - apply confined_ret.
  - apply confined_bind; [apply Hbody | by intros _].
Qed.

Lemma put_formatter_outside h i f st : outside h i st (put_formatter h f st).
Proof.
  repeat split; simpl; try done.
  intros h' Hh. by rewrite fn_lookup_insert_ne.
Qed.

Lemma put_rows_outside' h i row st :
  outside h i st (put_rows (<[i := row]> (rows (scores st))) st).
Proof.
  repeat split; simpl; try done.
  - intros i' Hi'. by rewrite list_lookup_insert_ne.
  - unfold shape0. simpl. by rewrite length_insert.
Qed.

Lemma confined_is_completed h i : confined h i (fmt_is_completed i h).
Proof. intros st. split; [by repeat constructor | apply outside_refl]. Qed.

Lemma confined_reset h i : confined h i (fmt_reset i h).
Proof. intros st. split; [by repeat constructor | apply put_formatter_outside]. Qed.

Lemma confined_accept_token h i token : confined h i (fmt_accept_token i h token).
Proof.
  intros st. unfold fmt_accept_token.
  destruct (accept_token _ _); (split; [by repeat constructor |]).
  - apply put_formatter_outside.
  - apply outside_refl.
Qed.

Lemma confined_compute_allowed_tokens h i : confined h i (fmt_compute_allowed_tokens i h).
Proof. intros st. split; [by repeat constructor | apply put_formatter_outside]. Qed.

Lemma confined_mask_logits h i row : confined h i (fmt_mask_logits i h i row).
Proof.
  intros st. unfold fmt_mask_logits.
  destruct (mask_logits _ _) as [f [row'|row']]; (split; [by repeat constructor |]).
  - eapply outside_trans; [apply put_formatter_outside | apply put_rows_outside'].
  - apply put_formatter_outside.
Qed.

Lemma confined_scores_row h i : confined h i (scores_row i).
Proof.
  intros st. unfold scores_row.
  destruct (_ !! _); (split; [constructor | apply outside_refl]).
Qed.

Lemma confined_scores_fill_row h i x : confined h i (scores_fill_row i x).
Proof.
  intros st. unfold scores_fill_row.
  destruct (decide _); (split; [constructor | ]).
  - apply put_rows_outside'.
  - apply outside_refl.
Qed.

Lemma confined_scores_set h i j x : confined h i (scores_set i j x).
Proof.
  intros st. unfold scores_set.
  destruct (_ !! _); [destruct (index _ _) |]; (split; [constructor | ]);
    try apply outside_refl.
  apply put_rows_outside'.
Qed.

Lemma confined_scores_assign_row h i row : confined h i (scores_assign_row i row).
Proof.
  intros st. unfold scores_assign_row.
  destruct (decide _); [destruct (decide _); [| destruct row as [|x [|]]] |];
    (split; [constructor | ]); try apply outside_refl; apply put_rows_outside'.
Qed.

Lemma confined_first_iteration_body lane formatter config prompt :
  confined formatter lane (first_iteration_body (lane, (formatter, config, prompt))).
Proof.
  unfold first_iteration_body.
  apply confined_bind; [| intros _].
  - apply confined_when, confined_bind; [apply confined_is_completed |].
    intros b. apply confined_when, confined_reset.
  - apply confined_when, confined_for_each. intros token. apply confined_accept_token.
Qed.

Lemma confined_later_iteration_body eos lane formatter input_id :
  confined formatter lane (later_iteration_body eos (lane, (formatter, input_id))).
Proof. apply confined_when, confined_accept_token. Qed.

Lemma confined_mask_body eos i formatter :
  confined formatter i (mask_body eos (i, formatter)).
Proof.
  unfold mask_body. apply confined_bind; [apply confined_is_completed |].
  intros [|].
  - apply confined_bind; [apply confined_scores_fill_row |].
    intros _. apply confined_scores_set.
  - apply confined_bind; [apply confined_compute_allowed_tokens | intros _].
    apply confined_bind; [apply confined_scores_row | intros row].
    apply confined_bind; [apply confined_mask_logits | intros [new|]].
    + apply confined_scores_assign_row.
    + apply confined_ret.
Qed.

(** *** Loops over the lanes *)


Lemma outside_view h i h' i' st st' :
  outside h i st st' → h' ≠ h → i' ≠ i → view h' i' st' = view h' i' st.
Proof.
  intros (Hf & Hr & Hs & _) Hh Hi. unfold view.
  by rewrite Hf, Hr, Hs.
Qed.

Section Loop.
Context {A : Type} (body : nat * A → M F unit) (hd : A → handle).
Hypothesis body_confined : ∀ k x, confined (hd x) k (body (k, x)).

Lemma loop_events l n st :
  Forall (λ ev : event, (n ≤ ev.1 < n + length l)%nat)
    (for_each body (enumerate_from n l) st).1.2.
Proof.
  revert n st. induction l as [|x l IH]; intros n st; simpl; [constructor |].
  destruct (body_confined n x st) as [Hev _].
  destruct (body (n, x) st) as [[st1 evs1] [[]|e]] eqn:Eb.
  - rewrite (bind_run _ _ _ _ _ _ Eb). simpl. apply list.Forall_app. split.
    + eapply list.Forall_impl; [exact Hev |]. simpl. intros ev ->. lia.
    + eapply list.Forall_impl; [apply (IH (S n) st1) |]. simpl. intros ev ?. lia.
  - rewrite (bind_Raise _ _ _ _ _ _ Eb). simpl.
    eapply list.Forall_impl; [exact Hev |]. simpl. intros ev ->. lia.
Qed.

Lemma loop_view l n st h i :
  h ∉ hd <$> l → (i < n ∨ n + length l ≤ i)%nat →
  view h i (for_each body (enumerate_from n l) st).1.1 = view h i st.
Proof.
  revert n st. induction l as [|x l IH]; intros n st Hh Hi; simpl; [done |].
  rewrite fmap_cons in Hh. apply not_elem_of_cons in Hh as [Hx Hh].
  destruct (body_confined n x st) as [_ Hout].
  assert (Hv : view h i (body (n, x) st).1.1 = view h i st).
  { eapply outside_view; [exact Hout | done | simpl in Hi; lia]. }
  destruct (body (n, x) st) as [[st1 evs1] [[]|e]] eqn:Eb.
  - rewrite (bind_run _ _ _ _ _ _ Eb). simpl in *.
    rewrite IH; [done | done | lia].
  - by rewrite (bind_Raise _ _ _ _ _ _ Eb).
Qed.

Lemma loop_globals l n st :
  let st' := (for_each body (enumerate_from n l) st).1.1 in
  shape1 (scores st') = shape1 (scores st)
  ∧ shape0 (scores st') = shape0 (scores st)
  ∧ _last_input_id_length st' = _last_input_id_length st.
Proof.
  revert n st. induction l as [|x l IH]; intros n st; simpl; [done |].
  destruct (body_confined n x st) as [_ (_ & _ & H1 & H2 & H3)].
  destruct (body (n, x) st) as [[st1 evs1] [[]|e]] eqn:Eb.
  - rewrite (bind_run _ _ _ _ _ _ Eb). simpl in *.
    destruct (IH (S n) st1) as (? & ? & ?). split_and!; congruence.
  - by rewrite (bind_Raise _ _ _ _ _ _ Eb).
Qed.

(** In a loop that returns, the calls for the lane at position [i] are
    those of its body.  When the handles are pairwise distinct, that body
    runs in a state that shows the lane what the initial state does, and
    the final state shows it what its body left. *)
Lemma loop_lane l n i x st st' evs :
  l !! i = Some x →
  for_each body (enumerate_from n l) st = (st', evs, Ok ()) →
  ∃ st1 st2 evs_i,
    body ((n + i)%nat, x) st1 = (st2, evs_i, Ok ())
    ∧ lane_calls (n + i) evs = evs_i.*2
    ∧ (NoDup (hd <$> l) →
       view (hd x) (n + i) st1 = view (hd x) (n + i) st
       ∧ view (hd x) (n + i) st' = view (hd x) (n + i) st2).
Proof.
  revert n i st evs. induction l as [|y l IH]; intros n i st evs Hi Hrun; [done |].
  simpl in Hrun. apply bind_Ok in Hrun as (st1 & evs1 & [] & evs2 & Hb & Hrest & ->).
  destruct (body_confined n y st) as [Hev Hout]. rewrite Hb in Hev, Hout. simpl in *.
  destruct i as [|i]; simpl in Hi.
  - injection Hi as ->. exists st, st1, evs1.
    rewrite Nat.add_0_r. split_and!; [done | |].
    + rewrite lane_calls_app, (lane_calls_own _ _ Hev).
      rewrite lane_calls_other, app_nil_r; [done |].
      pose proof (loop_events l (S n) st1) as Hev2. rewrite Hrest in Hev2.
      eapply list.Forall_impl; [exact Hev2 |]. simpl. intros ev ?. lia.
    + rewrite ?fmap_cons. intros [Hy Hnd]%list.NoDup_cons. split; [done |].
      pose proof (loop_view l (S n) st1 (hd x) n Hy) as Hv.
      rewrite Hrest in Hv. apply Hv. lia.
  - destruct (IH (S n) i st1 evs2 Hi Hrest) as (sa & sb & evs_i & Hbody & Hcalls & Hviews).
    replace (S n + i)%nat with (n + S i)%nat in * by lia.
    exists sa, sb, evs_i. split_and!; [done | |].
    + rewrite lane_calls_app, Hcalls, lane_calls_other; [done |].
      eapply list.Forall_impl; [exact Hev |]. simpl. intros ev ->. lia.
    + rewrite ?fmap_cons. intros [Hy Hnd]%list.NoDup_cons.
      destruct (Hviews Hnd) as [Hva Hvb]. split; [| done].
      rewrite Hva. eapply outside_view; [exact Hout | | lia].
      intros Heq. apply Hy. rewrite <- Heq. apply list_elem_of_fmap.
      exists x. split; [done |]. by eapply list_elem_of_lookup_2.
Qed.

End Loop.

(** *** The bodies of the loops, when they return *)

Lemma when_Ok b (m : M F unit) st st' evs :
  when b m st = (st', evs, Ok ()) →
  if b then m st = (st', evs, Ok ()) else st' = st ∧ evs = [].
Proof. destruct b; simpl; [done |]. by intros [= <- <-]. Qed.

Lemma for_each_accept_token_Ok lane h tokens st st' evs :
  for_each (fmt_accept_token lane h) tokens st = (st', evs, Ok ()) →
  evs.*2 = CAcceptToken <$> tokens.
Proof.
  revert st evs. induction tokens as [|token tokens IH]; intros st evs; simpl.
  - by intros [= <- <-].
  - intros (st1 & evs1 & [] & evs2 & Ha & Hrest & ->)%bind_Ok.
    unfold fmt_accept_token in Ha. destruct (accept_token _ _); [| done].
    injection Ha as <- <-. rewrite fmap_app, fmap_cons. simpl. f_equal. by eapply IH.
Qed.



Lemma updates_accept tokens : updates (CAcceptToken <$> tokens) = CAcceptToken <$> tokens.
Proof.
  induction tokens as [|t ts IH]; [done |].
  rewrite fmap_cons. unfold updates in *. simpl. by f_equal.
Qed.

Lemma first_iteration_body_Ok lane h config prompt st st' evs :
  first_iteration_body (lane, (h, config, prompt)) st = (st', evs, Ok ()) →
  updates evs.*2
  = (if reset_on_completion config && is_completed (formatter_at st h)
     then [CReset] else [])
    ++ (if read_prompt config then CAcceptToken <$> prompt else []).
Proof.
  unfold first_iteration_body.
  intros (st1 & evs1 & [] & evs2 & Hreset & Hprompt & ->)%bind_Ok.
  rewrite fmap_app. unfold updates. rewrite List.filter_app. f_equal.
  - apply when_Ok in Hreset. destruct (reset_on_completion config); simpl.
    + apply bind_Ok in Hreset as (st2 & evs3 & b & evs4 & Hc & Hr & ->).
      injection Hc as <- <- <-. apply when_Ok in Hr.
      destruct (is_completed (formatter_at st h)).
      * by injection Hr as <- <-.
      * by destruct Hr as [_ ->].
    + by destruct Hreset as [_ ->].
  - apply when_Ok in Hprompt. destruct (read_prompt config).
    + apply for_each_accept_token_Ok in Hprompt. rewrite Hprompt. apply updates_accept.
    + by destruct Hprompt as [_ ->].
Qed.

Lemma later_iteration_body_Ok eos lane h input_id st st' evs :
  later_iteration_body eos (lane, (h, input_id)) st = (st', evs, Ok ()) →
  evs.*2 = if decide (input_id = eos) then [] else [CAcceptToken input_id].
Proof.
  unfold later_iteration_body. intros Hw%when_Ok.
  destruct (decide (input_id = eos)) as [->|Hne].
  - rewrite bool_decide_false in Hw by (by intros []). by destruct Hw as [_ ->].
  - rewrite bool_decide_true in Hw by done.
    unfold fmt_accept_token in Hw. destruct (accept_token _ _); [| done].
    by injection Hw as <- <-.
Qed.


Lemma mask_body_Ok eos i h st st' evs :
  mask_body eos (i, h) st = (st', evs, Ok ()) →
  (is_completed (formatter_at st h) = true
   ∧ evs = [(i, CIsCompleted)]
   ∧ ∃ k, index (shape1 (scores st)) eos = Some k
          ∧ rows (scores st') !! i = Some (eos_row (shape1 (scores st)) k))
  ∨ (is_completed (formatter_at st h) = false
     ∧ evs.*2 = [CIsCompleted; CComputeAllowedTokens; CMaskLogits]).
Proof.
  unfold mask_body.
  intros (st1 & evs1 & b & evs2 & Hc & Hrest & ->)%bind_Ok.
  injection Hc as <- <- <-. destruct (is_completed (formatter_at st h)).
  - left. apply bind_Ok in Hrest as (st2 & evs3 & [] & evs4 & Hfill & Hset & ->).
    unfold scores_fill_row in Hfill. destruct (decide _) as [Hi|]; [| done].
    injection Hfill as <- <-.
    unfold scores_set in Hset. simpl in Hset.
    rewrite list_lookup_insert_eq in Hset by done.
    destruct (index _ _) as [k|]; [| done]. injection Hset as <- <-.
    split_and!; [done | done |]. exists k. split; [done |]. simpl.
    rewrite list_insert_insert_eq. by apply list_lookup_insert_eq.
  - right. split; [done |].
    apply bind_Ok in Hrest as (st2 & evs3 & [] & evs4 & Hcompute & Hrest & ->).
    injection Hcompute as <- <-.
    apply bind_Ok in Hrest as (st3 & evs5 & row & evs6 & Hrow & Hrest & ->).
    unfold scores_row in Hrow. destruct (_ !! _); [| done]. injection Hrow as <- <- <-.
    apply bind_Ok in Hrest as (st4 & evs7 & new & evs8 & Hmask & Hassign & ->).
    unfold fmt_mask_logits in Hmask.
    destruct (mask_logits _ _) as [f [row'|row']]; injection Hmask as <- <- <-.
    + by injection Hassign as <- <-.
    + unfold scores_assign_row in Hassign.
      repeat (destruct (decide _) in Hassign); try done.
      * by injection Hassign as <- <-.
      * destruct row' as [|x [|]]; try done. by injection Hassign as <- <-.
Qed.

(** *** [__call__], when it returns *)

Lemma call_Ok self input_ids st st' evs r :
  __call__ self input_ids st = (st', evs, Ok r) →
  ∃ st1 evs1 evs2,
    update_formatters self input_ids st = (st1, evs1, Ok ())
    ∧ mask_scores self st1 = (st', evs2, Ok ())
    ∧ evs = evs1 ++ evs2
    ∧ r = scores st'.
Proof.
  unfold __call__.
  intros (st1 & evs1 & [] & evs2 & Hupdate & Hrest & ->)%bind_Ok.
  apply bind_Ok in Hrest as (st2 & evs3 & [] & evs4 & Hmask & Hget & ->).
  injection Hget as <- <- <-. exists st1, evs1, evs3.
  by rewrite app_nil_r.
Qed.


Lemma update_formatters_first self input_ids st st1 evs1 :
  _last_input_id_length st = None →
  update_formatters self input_ids st = (st1, evs1, Ok ()) →
  shape0 input_ids = length (_formatters self)
  ∧ for_each first_iteration_body
      (enumerate (zip (zip (_formatters self) (configs self)) (rows input_ids)))
      (with_length (shape1 input_ids) st) = (st1, evs1, Ok ()).
Proof.
  intros Hlast. unfold update_formatters.
  intros (st2 & evs2 & [] & evs3 & Hassert & Hrest & ->)%bind_Ok.
  unfold assert_ in Hassert. destruct (bool_decide _) eqn:Hb; [| done].
  apply bool_decide_eq_true in Hb. injection Hassert as <- <-.
  apply bind_Ok in Hrest as (st3 & evs4 & last & evs5 & Hget & Hrest & ->).
  injection Hget as <- <- <-. rewrite Hlast in Hrest.
  apply bind_Ok in Hrest as (st4 & evs6 & [] & evs7 & Hset & Hloop & ->).
  injection Hset as <- <-. done.
Qed.

Lemma update_formatters_later self input_ids st st1 evs1 n :
  _last_input_id_length st = Some n →
  update_formatters self input_ids st = (st1, evs1, Ok ()) →
  shape0 input_ids = length (_formatters self)
  ∧ ∃ column,
      mapM list.last (rows input_ids) = Some column
      ∧ for_each (later_iteration_body (_eos_token_id self))
          (enumerate (zip (_formatters self) column))
          (with_length (n + 1) st) = (st1, evs1, Ok ()).
Proof.
  intros Hlast. unfold update_formatters.
  intros (st2 & evs2 & [] & evs3 & Hassert & Hrest & ->)%bind_Ok.
  unfold assert_ in Hassert. destruct (bool_decide _) eqn:Hb; [| done].
  apply bool_decide_eq_true in Hb. injection Hassert as <- <-.
  apply bind_Ok in Hrest as (st3 & evs4 & last & evs5 & Hget & Hrest & ->).
  injection Hget as <- <- <-. rewrite Hlast in Hrest.
  apply bind_Ok in Hrest as (st4 & evs6 & [] & evs7 & Hassert & Hrest & ->).
  unfold assert_ in Hassert. destruct (bool_decide _); [| done].
  injection Hassert as <- <-.
  apply bind_Ok in Hrest as (st5 & evs8 & [] & evs9 & Hset & Hrest & ->).
  injection Hset as <- <-.
  apply bind_Ok in Hrest as (st6 & evs10 & column & evs11 & Hcol & Hloop & ->).
  unfold last_column in Hcol.
  destruct (shape1 input_ids); [done |].
  destruct (mapM list.last (rows input_ids)) as [column'|]; [| done].
  injection Hcol as <- <- <-. split; [done |]. by exists column'.
Qed.


(** *** The calls of the update of the formatters *)


Lemma emits_ret P {A} (a : A) : emits P (mret a : M F A).
Proof. intros st. constructor. Qed.

Lemma emits_bind P {A B} (m : M F A) (f : A → M F B) :
  emits P m → (∀ a, emits P (f a)) → emits P (m ≫= f).
Proof.
  intros Hm Hf st. specialize (Hm st).
  destruct (m st) as [[st1 evs1] [a|e]] eqn:Em.
  - rewrite (bind_run _ _ _ _ _ _ Em). simpl. apply list.Forall_app. split; [done | apply Hf].
  - by rewrite (bind_Raise _ _ _ _ _ _ Em).
Qed.

Lemma emits_when P b (m : M F unit) : emits P m → emits P (when b m).
Proof. destruct b; [done | intros _; apply emits_ret]. Qed.

Lemma emits_for_each P {A} (body : A → M F unit) l :
  (∀ a, emits P (body a)) → emits P (for_each body l).
Proof.
  intros Hbody. induction l as [|a l IH]; simpl.
  - apply emits_ret.
  - apply emits_bind; [apply Hbody | by intros _].
Qed.

Lemma emits_accept_token (P : call → Prop) lane h token :
  P (CAcceptToken token) → emits P (fmt_accept_token lane h token).
Proof.
  intros HP st. unfold fmt_accept_token.
  destruct (accept_token _ _); by repeat constructor.
Qed.


Lemma update_formatters_emits self input_ids :
  emits (λ c, is_masking c = false) (update_formatters self input_ids).
Proof.
  unfold update_formatters.
  apply emits_bind; [| intros _; apply emits_bind; [| intros [n|]]].
  - unfold assert_. intros st. destruct (bool_decide _); constructor.
  - intros st. constructor.
  - apply emits_bind; [| intros _; apply emits_bind; [| intros _; apply emits_bind]].
    + unfold assert_. intros st. destruct (bool_decide _); constructor.
    + intros st. constructor.
    + unfold last_column. intros st.
      destruct (shape1 input_ids); [constructor |].
      destruct (mapM _ _); constructor.
    + intros column. apply emits_for_each. intros [lane [h token]].
      by apply emits_when, emits_accept_token.
  - apply emits_bind; [intros st; constructor | intros _].
    apply emits_for_each. intros [lane [[h config] prompt]].
    unfold first_iteration_body. apply emits_bind; [| intros _].
    + apply emits_when, emits_bind; [intros st; by repeat constructor |].
      intros b. apply emits_when. intros st. by repeat constructor.
    + apply emits_when, emits_for_each. intros token. by apply emits_accept_token.
Qed.

Lemma lane_calls_Forall (P : call → Prop) lane evs :
  Forall (λ ev : event, P ev.2) evs → Forall P (lane_calls lane evs).
Proof.
  unfold lane_calls. induction 1 as [|ev evs Hev _ IH]; [constructor |].
  destruct (decide (ev.1 = lane)).
  - rewrite filter_cons_True by done. rewrite fmap_cons. by constructor.
  - by rewrite filter_cons_False.
Qed.

(** The calls of the masking loop for one lane. *)
Lemma mask_scores_lane self lane h st st' evs :
  _formatters self !! lane = Some h →
  mask_scores self st = (st', evs, Ok ()) →
  ∃ st1 st2 evs_i,
    mask_body (_eos_token_id self) (lane, h) st1 = (st2, evs_i, Ok ())
    ∧ lane_calls lane evs = evs_i.*2
    ∧ (NoDup (_formatters self) →
       view h lane st1 = view h lane st ∧ view h lane st' = view h lane st2).
Proof.
  intros Hh Hrun. unfold mask_scores, enumerate in Hrun.
  destruct (loop_lane (mask_body (_eos_token_id self)) id
              (λ k x, confined_mask_body _ k x) _ 0 lane h st st' evs Hh Hrun)
    as (st1 & st2 & evs_i & Hbody & Hcalls & Hviews).
  exists st1, st2, evs_i. rewrite list_fmap_id in Hviews. done.
Qed.

Lemma mask_scores_updates self lane st st' evs :
  (lane < length (_formatters self))%nat →
  mask_scores self st = (st', evs, Ok ()) →
  updates (lane_calls lane evs) = [].
Proof.
  intros [h Hh]%lookup_lt_is_Some_2 Hrun.
  destruct (mask_scores_lane self lane h st st' evs Hh Hrun)
    as (st1 & st2 & evs_i & Hbody & -> & _).
  apply mask_body_Ok in Hbody as [(_ & -> & _) | (_ & ->)]; done.
Qed.

Lemma later_iteration_confined eos k (x : handle * Z) :
  confined x.1 k (later_iteration_body eos (k, x)).
Proof. destruct x. apply confined_later_iteration_body. Qed.

Lemma first_iteration_confined k (x : handle * EngineGenerationConfig * list Z) :
  confined x.1.1 k (first_iteration_body (k, x)).
Proof. destruct x as [[? ?] ?]. apply confined_first_iteration_body. Qed.

(** C2. In a call after the first that returns, the calls that change the
    state machine of a lane are: the acceptance of the token that the call
    appended to the history of that lane, once, when that token is not the
    end-of-sequence token, and none at all when it is. *)
Theorem later_call_accepts_new_token
    self input_ids st st' evs r n lane row token :
  _last_input_id_length st = Some n →
  __call__ self input_ids st = (st', evs, Ok r) →
  (lane < length (_formatters self))%nat →
  rows input_ids !! lane = Some row →
  list.last row = Some token →
  updates (lane_calls lane evs)
  = if decide (token = _eos_token_id self) then [] else [CAcceptToken token].
Proof.
  intros Hlast Hcall Hlane Hrow Htoken.
  apply call_Ok in Hcall as (st1 & evs1 & evs2 & Hupdate & Hmask & -> & _).
  rewrite lane_calls_app. unfold updates. rewrite List.filter_app.
  fold (updates (lane_calls lane evs2)).
  rewrite (mask_scores_updates self lane st1 st' evs2) by done.
  rewrite app_nil_r.
  apply (update_formatters_later _ _ _ _ _ _ Hlast) in Hupdate
    as (_ & column & Hcolumn & Hloop).
  destruct (lookup_lt_is_Some_2 _ _ Hlane) as [h Hh].
  assert (Hitem : zip (_formatters self) column !! lane = Some (h, token)).
  { apply mapM_Some in Hcolumn.
    destruct (Forall2_lookup_l _ _ _ _ _ Hcolumn Hrow) as (token' & Hc & Hl).
    rewrite Htoken in Hl. injection Hl as <-.
    apply lookup_zip_with_Some. by exists h, token. }
  unfold enumerate in Hloop.
  destruct (loop_lane (later_iteration_body (_eos_token_id self)) fst
              (later_iteration_confined _) _ 0 lane _ _ _ _ Hitem Hloop)
    as (sa & sb & evs_i & Hbody & Hcalls & _).
  simpl in Hbody, Hcalls. rewrite Hcalls.
  apply later_iteration_body_Ok in Hbody. rewrite Hbody.
  by destruct (decide _).
Qed.

Lemma zip_fst_take {A B} (l : list A) (k : list B) :
  (zip l k).*1 = take (length k) l.
Proof.
  revert k. induction l as [|a l IH]; intros [|b k]; simpl; try done.
  by rewrite IH.
Qed.

Lemma take_NoDup {A} (l : list A) n : NoDup l → NoDup (take n l).
Proof. intros Hnd. eapply sublist_NoDup; [done | apply sublist_take]. Qed.

Lemma zip_fst_NoDup' {A B} (l : list A) (k : list B) : NoDup l → NoDup ((zip l k).*1).
Proof. intros Hnd. rewrite zip_fst_take. by apply take_NoDup. Qed.

Lemma zip_zip_fst_NoDup {A B C} (l : list A) (k : list B) (j : list C) :
  NoDup l → NoDup ((λ x, x.1.1) <$> zip (zip l k) j).
Proof.
  intros Hnd. change (NoDup ((fst ∘ fst) <$> zip (zip l k) j)).
  rewrite list_fmap_compose, zip_fst_take, fmap_take, zip_fst_take.
  by apply take_NoDup, take_NoDup.
Qed.

(** C3. In the first call, when it returns, the calls that change the
    state machine of a lane are: one reset, if and only if the lane's
    configuration has [reset_on_completion] and the machine reports that it
    is completed; then, if the configuration has [read_prompt], the
    acceptance of every token of the lane's prompt in the order of the
    prompt, and otherwise no acceptance at all. *)
Theorem first_call_replays_prompt
    self input_ids st st' evs r lane formatter config prompt :
  _last_input_id_length st = None →
  NoDup (_formatters self) →
  __call__ self input_ids st = (st', evs, Ok r) →
  _formatters self !! lane = Some formatter →
  configs self !! lane = Some config →
  rows input_ids !! lane = Some prompt →
  updates (lane_calls lane evs)
  = (if reset_on_completion config && is_completed (formatter_at st formatter)
     then [CReset] else [])
    ++ (if read_prompt config then CAcceptToken <$> prompt else []).
Proof.
  intros Hlast Hnd Hcall Hh Hconfig Hprompt.
  apply call_Ok in Hcall as (st1 & evs1 & evs2 & Hupdate & Hmask & -> & _).
  rewrite lane_calls_app. unfold updates. rewrite List.filter_app.
  fold (updates (lane_calls lane evs2)).
  rewrite (mask_scores_updates self lane st1 st' evs2), app_nil_r;
    [| by eapply lookup_lt_Some | done].
  apply (update_formatters_first _ _ _ _ _ Hlast) in Hupdate as [_ Hloop].
  assert (Hitem : zip (zip (_formatters self) (configs self)) (rows input_ids) !! lane
                  = Some (formatter, config, prompt)).
  { apply lookup_zip_with_Some. exists (formatter, config), prompt.
    split_and!; [done | | done].
    apply lookup_zip_with_Some. by exists formatter, config. }
  unfold enumerate in Hloop.
  destruct (loop_lane first_iteration_body (λ x, x.1.1) first_iteration_confined
              _ 0 lane _ _ _ _ Hitem Hloop)
    as (sa & sb & evs_i & Hbody & Hcalls & Hviews).
  simpl in Hbody, Hcalls, Hviews. rewrite Hcalls.
  destruct Hviews as [Hva _].
  { by apply zip_zip_fst_NoDup. }
  injection Hva as Hf _ _. simpl in Hf.
  apply first_iteration_body_Ok in Hbody. unfold updates in Hbody.
  by rewrite Hbody, Hf.
Qed.

Lemma index_Some n z k :
  index n z = Some k → (k < n)%nat ∧ (0 ≤ z → Z.of_nat k = z).
Proof.
  unfold index. repeat case_decide; intros [= <-]; lia.
Qed.

Lemma eos_row_lookup V k j :
  (k < V)%nat → (j < V)%nat →
  eos_row V k !! j = Some (if decide (j = k) then zero else neg_inf).
Proof.
  intros Hk Hj. unfold eos_row. destruct (decide (j = k)) as [->|Hne].
  - apply list_lookup_insert_eq. by rewrite length_replicate.
  - rewrite list_lookup_insert_ne by done. by apply lookup_replicate_2.
Qed.


(** C1. When a call returns, a lane whose state machine reports that it
    is completed once the formatters are updated has, in the returned
    scores, a row that is negative infinity at every position but that
    of the end-of-sequence token, where it is 0.0; and the call makes
    neither [compute_allowed_tokens] nor [mask_logits] for that lane. *)
Theorem completed_lane_row
    self input_ids st st1 evs1 st' evs r lane formatter :
  NoDup (_formatters self) →
  _formatters self !! lane = Some formatter →
  update_formatters self input_ids st = (st1, evs1, Ok ()) →
  is_completed (formatter_at st1 formatter) = true →
  __call__ self input_ids st = (st', evs, Ok r) →
  completed_row r (_eos_token_id self) lane
  ∧ List.filter is_masking (lane_calls lane evs) = [].
Proof.
  intros Hnd Hh Hupdate Hcompleted Hcall.
  apply call_Ok in Hcall as (st1' & evs1' & evs2 & Hupdate' & Hmask & -> & ->).
  rewrite Hupdate in Hupdate'. injection Hupdate' as <- <-.
  destruct (mask_scores_lane self lane formatter st1 st' evs2 Hh Hmask)
    as (sa & sb & evs_i & Hbody & Hcalls & Hviews).
  destruct (Hviews Hnd) as [Hva Hvb].
  injection Hva as Hfa Hra Hsa. injection Hvb as _ Hrb Hsb.
  destruct (loop_globals (mask_body (_eos_token_id self)) id
              (λ k x, confined_mask_body _ k x) (_formatters self) 0 st1) as (Hs1 & _).
  unfold mask_scores, enumerate in Hmask. rewrite Hmask in Hs1. simpl in Hs1.
  apply mask_body_Ok in Hbody as [(_ & -> & k & Hk & Hrow) | (Hno & _)]; [| congruence].
  rewrite Hsa, <- Hs1 in Hk, Hrow. destruct (index_Some _ _ _ Hk) as [Hlt Hnonneg].
  split.
  - exists k, (eos_row (shape1 (scores st')) k). split_and!; try done.
    + by rewrite Hrb.
    + unfold eos_row. by rewrite length_insert, length_replicate.
    + intros j Hj. by apply eos_row_lookup.
  - rewrite lane_calls_app, List.filter_app, Hcalls. simpl. rewrite app_nil_r.
    pose proof (lane_calls_Forall _ lane _ (update_formatters_emits self input_ids st)) as Hev.
    rewrite Hupdate in Hev. simpl in Hev.
    induction Hev as [|c cs Hc _ IH]; [done |]. simpl. by rewrite Hc.
Qed.

(** C4, as the code has it.  When the number of lanes differs from the
    number of rows of the token history, or a call after the first comes
    with a history whose length is not the stored length plus one, the
    call raises the assertion error at once: the state is the one it was
    called in (no row is written, no formatter changed, the stored length
    is the same) and no call on a formatter was made. *)
Theorem call_precondition_failure self input_ids st :
  shape0 input_ids ≠ length (_formatters self)
  ∨ (∃ n, _last_input_id_length st = Some n ∧ shape1 input_ids ≠ (n + 1)%nat) →
  __call__ self input_ids st = (st, [], Raise AssertionError).
Proof.
  intros Hpre. unfold __call__. apply bind_Raise. unfold update_formatters.
  destruct (decide (shape0 input_ids = length (_formatters self))) as [Hlanes|Hlanes].
  - destruct Hpre as [? | (n & Hlast & Hlength)]; [done |].
    unfold mbind, M_bind, assert_. rewrite bool_decide_true by done. simpl.
    rewrite Hlast. rewrite bool_decide_false by done. done.
  - apply bind_Raise. unfold assert_. by rewrite bool_decide_false.
Qed.


(** *** Two runs of one lane *)


Lemma alike_ret h i h' i' {A} (a : A) : alike h i h' i' (mret a : M F A) (mret a).
Proof. by intros st st' Hv. Qed.

Lemma alike_bind h i h' i' {A B} (m m' : M F A) (f f' : A → M F B) :
  alike h i h' i' m m' → (∀ a, alike h i h' i' (f a) (f' a)) →
  alike h i h' i' (m ≫= f) (m' ≫= f').
Proof.
  intros Hm Hf st st' Hv. destruct (Hm st st' Hv) as (Hv1 & Hev1 & Ho1).
  destruct (m st) as [[st1 evs1] [a|e]] eqn:Em;
    destruct (m' st') as [[st1' evs1'] [a'|e']] eqn:Em'; simpl in *; try done.
  - injection Ho1 as <-.
    rewrite (bind_run _ _ _ _ _ _ Em), (bind_run _ _ _ _ _ _ Em'). simpl.
    destruct (Hf a st1 st1' Hv1) as (Hv2 & Hev2 & Ho2).
    split_and!; [done | | done]. rewrite !fmap_app. congruence.
  - rewrite (bind_Raise _ _ _ _ _ _ Em), (bind_Raise _ _ _ _ _ _ Em').
    injection Ho1 as ->. simpl. split_and!; done.
Qed.

Lemma alike_when h i h' i' b (m m' : M F unit) :
  alike h i h' i' m m' → alike h i h' i' (when b m) (when b m').
Proof. destruct b; [done | intros _; apply alike_ret]. Qed.

Lemma alike_for_each h i h' i' {A} (body body' : A → M F unit) l :
  (∀ a, alike h i h' i' (body a) (body' a)) →
  alike h i h' i' (for_each body l) (for_each body' l).
Proof.
  intros Hbody. induction l as [|a l IH]; simpl.
  - apply alike_ret.
  - apply alike_bind; [apply Hbody | by intros _].
Qed.

Lemma view_put_formatter h i f st :
  view h i (put_formatter h f st) = (f, rows (scores st) !! i, shape1 (scores st)).
Proof. unfold view. simpl. by rewrite fn_lookup_insert. Qed.

Lemma view_put_rows h i row st :
  view h i (put_rows (<[i := row]> (rows (scores st))) st)
  = (formatter_at st h, const row <$> rows (scores st) !! i, shape1 (scores st)).
Proof.
  unfold view. simpl. f_equal. f_equal.
  destruct (decide (i < length (rows (scores st)))%nat).
  - rewrite list_lookup_insert_eq by done.
    by destruct (lookup_lt_is_Some_2 (rows (scores st)) i) as [? ->].
  - rewrite list_insert_ge by lia. by rewrite lookup_ge_None_2 by lia.
Qed.

Lemma view_rows_lt h i h' i' st st' :
  view h i st = view h' i' st' →
  (i < shape0 (scores st))%nat ↔ (i' < shape0 (scores st'))%nat.
Proof.
  intros [= _ Hr _]. unfold shape0.
  rewrite <- !lookup_lt_is_Some, Hr. done.
Qed.

Ltac alike_start :=
  intros st st' Hv; pose proof Hv as Hv'; injection Hv as Hf Hr Hs.

Ltac alike_finish Hf Hr Hs :=
  simpl; rewrite ?view_put_formatter, ?view_put_rows;
  rewrite ?Hf, ?Hr, ?Hs; split_and?; solve [done | congruence].

Lemma alike_is_completed h i h' i' :
  alike h i h' i' (fmt_is_completed i h) (fmt_is_completed i' h').
Proof. alike_start. unfold fmt_is_completed. alike_finish Hf Hr Hs. Qed.

Lemma alike_reset h i h' i' : alike h i h' i' (fmt_reset i h) (fmt_reset i' h').
Proof. alike_start. unfold fmt_reset. alike_finish Hf Hr Hs. Qed.

Lemma alike_accept_token h i h' i' token :
  alike h i h' i' (fmt_accept_token i h token) (fmt_accept_token i' h' token).
Proof.
  alike_start. unfold fmt_accept_token. rewrite Hf.
  destruct (accept_token _ _); alike_finish Hf Hr Hs.
Qed.

Lemma alike_compute_allowed_tokens h i h' i' :
  alike h i h' i' (fmt_compute_allowed_tokens i h) (fmt_compute_allowed_tokens i' h').
Proof. alike_start. unfold fmt_compute_allowed_tokens. alike_finish Hf Hr Hs. Qed.

Lemma alike_scores_row h i h' i' : alike h i h' i' (scores_row i) (scores_row i').
Proof.
  alike_start. unfold scores_row. rewrite Hr.
  destruct (rows (scores st') !! i'); alike_finish Hf Hr Hs.
Qed.

Lemma alike_scores_fill_row h i h' i' x :
  alike h i h' i' (scores_fill_row i x) (scores_fill_row i' x).
Proof.
  alike_start. unfold scores_fill_row.
  pose proof (view_rows_lt _ _ _ _ _ _ Hv') as Hlt.
  destruct (decide (i < _)%nat), (decide (i' < _)%nat); try tauto; alike_finish Hf Hr Hs.
Qed.

Lemma alike_scores_set h i h' i' j x :
  alike h i h' i' (scores_set i j x) (scores_set i' j x).
Proof.
  alike_start. unfold scores_set. rewrite Hr, Hs.
  destruct (rows (scores _) !! i') as [row|] eqn:Erow;
    [destruct (index _ _) |]; alike_finish Hf Hr Hs.
Qed.

Lemma alike_scores_assign_row h i h' i' row :
  alike h i h' i' (scores_assign_row i row) (scores_assign_row i' row).
Proof.
  alike_start. unfold scores_assign_row.
  pose proof (view_rows_lt _ _ _ _ _ _ Hv') as Hlt. rewrite Hs.
  destruct (decide (i < _)%nat), (decide (i' < _)%nat); try tauto;
    try (destruct (decide _); [| destruct row as [|? [|]]]); alike_finish Hf Hr Hs.
Qed.

Lemma alike_mask_logits h i h' i' row :
  alike h i h' i' (fmt_mask_logits i h i row) (fmt_mask_logits i' h' i' row).
Proof.
  alike_start. unfold fmt_mask_logits. rewrite Hf.
  destruct (mask_logits _ _) as [f [row'|row']]; [| alike_finish Hf Hr Hs].
  simpl.
  pose proof (view_put_rows h i row' (put_formatter h f st)) as E.
  pose proof (view_put_rows h' i' row' (put_formatter h' f st')) as E'.
  simpl in E, E'. rewrite E, E'. simpl.
  rewrite !fn_lookup_insert. by rewrite Hr, Hs.
Qed.

Lemma alike_first_iteration_body h i h' i' config prompt :
  alike h i h' i' (first_iteration_body (i, (h, config, prompt)))
    (first_iteration_body (i', (h', config, prompt))).
Proof.
  unfold first_iteration_body. apply alike_bind; [| intros _].
  - apply alike_when, alike_bind; [apply alike_is_completed |].
    intros b. apply alike_when, alike_reset.
  - apply alike_when, alike_for_each. intros token. apply alike_accept_token.
Qed.

Lemma alike_later_iteration_body h i h' i' eos input_id :
  alike h i h' i' (later_iteration_body eos (i, (h, input_id)))
    (later_iteration_body eos (i', (h', input_id))).
Proof. apply alike_when, alike_accept_token. Qed.

Lemma alike_mask_body h i h' i' eos :
  alike h i h' i' (mask_body eos (i, h)) (mask_body eos (i', h')).
Proof.
  unfold mask_body. apply alike_bind; [apply alike_is_completed |].
  intros [|].
  - apply alike_bind; [apply alike_scores_fill_row |].
    intros _. apply alike_scores_set.
  - apply alike_bind; [apply alike_compute_allowed_tokens | intros _].
    apply alike_bind; [apply alike_scores_row | intros row].
    apply alike_bind; [apply alike_mask_logits | intros [new|]].
    + apply alike_scores_assign_row.
    + apply alike_ret.
Qed.


(** Two loops that return, over lanes with pairwise distinct formatters:
    two lanes that see the same before the loops and whose bodies are
    alike see the same after them, and the same calls are made for them. *)
Lemma loop_alike {A} (body : nat * A → M F unit) (hd : A → handle)
    (l l' : list A) i i' x x' st st' st_end st_end' evs evs' :
  (∀ k y, confined (hd y) k (body (k, y))) →
  NoDup (hd <$> l) → NoDup (hd <$> l') →
  l !! i = Some x → l' !! i' = Some x' →
  alike (hd x) i (hd x') i' (body (i, x)) (body (i', x')) →
  view (hd x) i st = view (hd x') i' st' →
  for_each body (enumerate l) st = (st_end, evs, Ok ()) →
  for_each body (enumerate l') st' = (st_end', evs', Ok ()) →
  view (hd x) i st_end = view (hd x') i' st_end'
  ∧ lane_calls i evs = lane_calls i' evs'.
Proof.
  intros Hconf Hnd Hnd' Hx Hx' Halike Hv Hrun Hrun'.
  destruct (loop_lane body hd Hconf l 0 i x _ _ _ Hx Hrun)
    as (sa & sb & evs_i & Hbody & Hcalls & Hviews).
  destruct (loop_lane body hd Hconf l' 0 i' x' _ _ _ Hx' Hrun')
    as (sa' & sb' & evs_i' & Hbody' & Hcalls' & Hviews').
  destruct (Hviews Hnd) as [Hva Hvb]. destruct (Hviews' Hnd') as [Hva' Hvb'].
  simpl in *.
  destruct (Halike sa sa') as (Hvs & Hevs & _); [congruence |].
  rewrite Hbody, Hbody' in Hvs, Hevs. simpl in *.
  split; congruence.
Qed.

(** C9, for the calls that return.  Take two calls, on two batches, that
    both return, each on a processor whose lanes have pairwise distinct
    formatters, with the same end-of-sequence token, both first calls or
    both later ones.  If a lane of the first batch and a lane of the second
    have the same state machine, configuration, token history and row of
    scores (of the same width), then after the calls they have the same
    state machine and the same row of scores, and the same calls were made
    for them: whatever the other lanes hold and wherever the lane stands
    in its batch. *)
Theorem lane_independence
    self self' input_ids input_ids' st st' st_end st_end' evs evs' r r'
    lane lane' h h' config history :
  NoDup (_formatters self) → NoDup (_formatters self') →
  _eos_token_id self = _eos_token_id self' →
  (is_Some (_last_input_id_length st) ↔ is_Some (_last_input_id_length st')) →
  _formatters self !! lane = Some h → _formatters self' !! lane' = Some h' →
  configs self !! lane = Some config → configs self' !! lane' = Some config →
  rows input_ids !! lane = Some history → rows input_ids' !! lane' = Some history →
  formatter_at st h = formatter_at st' h' →
  rows (scores st) !! lane = rows (scores st') !! lane' →
  shape1 (scores st) = shape1 (scores st') →
  __call__ self input_ids st = (st_end, evs, Ok r) →
  __call__ self' input_ids' st' = (st_end', evs', Ok r') →
  formatter_at st_end h = formatter_at st_end' h'
  ∧ rows r !! lane = rows r' !! lane'
  ∧ lane_calls lane evs = lane_calls lane' evs'.
Proof.
  intros Hnd Hnd' Heos Hfirst Hh Hh' Hc Hc' Hrow Hrow' Hf Hr Hs Hcall Hcall'.
  apply call_Ok in Hcall as (st1 & evs1 & evs2 & Hupdate & Hmask & -> & ->).
  apply call_Ok in Hcall' as (st1' & evs1' & evs2' & Hupdate' & Hmask' & -> & ->).
  assert (Hv : ∀ n n', view h lane (with_length n st) = view h' lane' (with_length n' st')).
  { intros n n'. unfold view. simpl. by rewrite Hf, Hr, Hs. }
  assert (Hupd : view h lane st1 = view h' lane' st1'
                 ∧ lane_calls lane evs1 = lane_calls lane' evs1').
  { destruct (_last_input_id_length st) as [n|] eqn:Hlast;
      destruct (_last_input_id_length st') as [n'|] eqn:Hlast'.
    2: { exfalso. apply (is_Some_None (A:=nat)), Hfirst. by eexists. }
    2: { exfalso. apply (is_Some_None (A:=nat)), Hfirst. by eexists. }
    - apply (update_formatters_later _ _ _ _ _ _ Hlast) in Hupdate
        as (_ & column & Hcolumn & Hloop).
      apply (update_formatters_later _ _ _ _ _ _ Hlast') in Hupdate'
        as (_ & column' & Hcolumn' & Hloop').
      apply mapM_Some in Hcolumn, Hcolumn'.
      destruct (Forall2_lookup_l _ _ _ _ _ Hcolumn Hrow) as (token & Htoken & Hl).
      destruct (Forall2_lookup_l _ _ _ _ _ Hcolumn' Hrow') as (token' & Htoken' & Hl').
      assert (token' = token) as -> by congruence.
      rewrite <- Heos in Hloop'.
      eapply (loop_alike (later_iteration_body (_eos_token_id self)) fst
                (zip (_formatters self) column) (zip (_formatters self') column')
                lane lane' (h, token) (h', token));
        [apply later_iteration_confined | by apply zip_fst_NoDup' | by apply zip_fst_NoDup'
        | apply lookup_zip_with_Some; by exists h, token
        | apply lookup_zip_with_Some; by exists h', token
        | apply alike_later_iteration_body | apply Hv | exact Hloop | exact Hloop'].
    - apply (update_formatters_first _ _ _ _ _ Hlast) in Hupdate as [_ Hloop].
      apply (update_formatters_first _ _ _ _ _ Hlast') in Hupdate' as [_ Hloop'].
      eapply (loop_alike first_iteration_body (λ x, x.1.1)
                (zip (zip (_formatters self) (configs self)) (rows input_ids))
                (zip (zip (_formatters self') (configs self')) (rows input_ids'))
                lane lane' (h, config, history) (h', config, history));
        [apply first_iteration_confined | by apply zip_zip_fst_NoDup
        | by apply zip_zip_fst_NoDup
        | apply lookup_zip_with_Some; exists (h, config), history; split_and!; try done;
          apply lookup_zip_with_Some; by exists h, config
        | apply lookup_zip_with_Some; exists (h', config), history; split_and!; try done;
          apply lookup_zip_with_Some; by exists h', config
        | apply alike_first_iteration_body | apply Hv | exact Hloop | exact Hloop']. }
  destruct Hupd as [Hv1 Hcalls1].
  unfold mask_scores in Hmask, Hmask'. rewrite <- Heos in Hmask'.
  destruct (loop_alike (mask_body (_eos_token_id self)) id
              (_formatters self) (_formatters self') lane lane' h h'
              st1 st1' st_end st_end' evs2 evs2') as [Hv2 Hcalls2];
    try done; try (by rewrite list_fmap_id).
  - intros k y. apply confined_mask_body.
  - apply alike_mask_body.
  - injection Hv2 as Hf2 Hr2 _. rewrite !lane_calls_app. split_and!; congruence.
Qed.

End ProcessorFacts.


(** ** The scenarios, run *)

(** Scenario A, first call: with [read_prompt] off no token is accepted;
    the completed machine of lane 0 is reset, and both rows are masked by
    the machines. *)
Example scenario_A_first_call :
  observe (__call__ (two_lanes no_replay) prompts (start finished fresh ones))
  = ((fresh, fresh, Some 5%nat,
      [[one; neg_inf; one; one]; [one; neg_inf; one; one]]),
     [(0, CIsCompleted); (0, CReset); (1, CIsCompleted);
      (0, CIsCompleted); (0, CComputeAllowedTokens); (0, CMaskLogits);
      (1, CIsCompleted); (1, CComputeAllowedTokens); (1, CMaskLogits)]%nat,
     Ok {| shape1 := 4; rows := [[one; neg_inf; one; one]; [one; neg_inf; one; one]] |}).
Proof. reflexivity. Qed.

(** Scenario A, second call: lane 0 is completed by its token and gets the
    end-of-sequence row; lane 1 gets the mask of its machine. *)
Example scenario_A_second_call :
  observe second_call
  = (({| seen := [3]; done := true |}, {| seen := [0]; done := false |}, Some 6%nat,
      [[neg_inf; neg_inf; zero; neg_inf]; [one; neg_inf; one; one]]),
     [(0, CAcceptToken 3); (1, CAcceptToken 0); (0, CIsCompleted);
      (1, CIsCompleted); (1, CComputeAllowedTokens); (1, CMaskLogits)]%nat,
     Ok {| shape1 := 4; rows := [[neg_inf; neg_inf; zero; neg_inf]; [one; neg_inf; one; one]] |}).
Proof. reflexivity. Qed.

Lemma two_handles_NoDup : NoDup [0; 1]%nat.
Proof. by apply (bool_decide_unpack (NoDup [0; 1]%nat)). Defined.

Lemma two_handles_swapped_NoDup : NoDup [1; 0]%nat.
Proof. by apply (bool_decide_unpack (NoDup [1; 0]%nat)). Defined.

(** Lane 0 of the second call of scenario A. *)
Lemma completed_lane_row_witness :
  completed_row second_call.1.1.(scores) 2 0
  ∧ List.filter is_masking (lane_calls 0 second_call.1.2) = [].
Proof.
  apply (completed_lane_row (two_lanes no_replay) one_more after_prompts
           (update_formatters (two_lanes no_replay) one_more after_prompts).1.1
           (update_formatters (two_lanes no_replay) one_more after_prompts).1.2
           second_call.1.1 second_call.1.2 second_call.1.1.(scores) 0%nat 0%nat).
  - exact two_handles_NoDup.
  - reflexivity.
  - reflexivity.
  - reflexivity.
  - reflexivity.
Defined.

(** Lane 0 of the second call of scenario A: its new token 3 is accepted
    once. *)
Lemma later_call_accepts_new_token_witness :
  updates (lane_calls 0 second_call.1.2) = [CAcceptToken 3].
Proof.
  apply (later_call_accepts_new_token (two_lanes no_replay) one_more after_prompts
           second_call.1.1 second_call.1.2 second_call.1.1.(scores) 5 0
           [0; 0; 0; 0; 0; 3] 3).
  - reflexivity.
  - reflexivity.
  - simpl. lia.
  - reflexivity.
  - reflexivity.
Defined.

(** A first call with [read_prompt] on: the completed machine of lane 0
    is reset and then accepts the prompt. *)
Lemma first_call_replays_prompt_witness :
  updates (lane_calls 0 (__call__ (two_lanes replay) accepted_prompt
                           (start finished fresh ones)).1.2)
  = [CReset; CAcceptToken 0].
Proof.
  refine (first_call_replays_prompt (two_lanes replay) accepted_prompt
            (start finished fresh ones)
            (__call__ (two_lanes replay) accepted_prompt (start finished fresh ones)).1.1
            (__call__ (two_lanes replay) accepted_prompt (start finished fresh ones)).1.2
            (__call__ (two_lanes replay) accepted_prompt (start finished fresh ones)).1.1.(scores)
            0%nat 0%nat replay [0] _ _ _ _ _ _).
  - reflexivity.
  - exact two_handles_NoDup.
  - reflexivity.
  - reflexivity.
  - reflexivity.
  - reflexivity.
Defined.

(** Scenario B: after the first call on five tokens, a history of seven
    tokens is refused and nothing changes. *)
Lemma call_precondition_failure_witness :
  __call__ (two_lanes no_replay) two_more after_prompts
  = (after_prompts, [], Raise AssertionError).
Proof.
  apply call_precondition_failure. right. exists 5%nat. split.
  - reflexivity.
  - simpl. lia.
Defined.

(** C4, as stated, fails.  With scores of three rows for two lanes the
    call returns; with scores of one row it raises [IndexError] after it
    has made calls on the formatters, stored the length and written row 0. *)
Lemma call_precondition_counterexample :
  (shape0 (scores (start fresh fresh three_rows)) = 3%nat
   ∧ length (_formatters (two_lanes EngineGenerationConfig_default)) = 2%nat
   ∧ (__call__ (two_lanes EngineGenerationConfig_default) accepted_prompt
        (start fresh fresh three_rows)).2
     = Ok {| shape1 := 4;
             rows := [[one; neg_inf; one; one]; [one; neg_inf; one; one];
                      [one; one; one; one]] |})
  ∧ (shape0 (scores (start fresh fresh one_row)) = 1%nat
     ∧ observe (__call__ (two_lanes EngineGenerationConfig_default) accepted_prompt
                  (start fresh fresh one_row))
       = (({| seen := [0]; done := false |}, {| seen := [0]; done := false |},
           Some 1%nat, [[one; neg_inf; one; one]]),
          [(0, CAcceptToken 0); (1, CAcceptToken 0); (0, CIsCompleted);
           (0, CComputeAllowedTokens); (0, CMaskLogits); (1, CIsCompleted);
           (1, CComputeAllowedTokens)]%nat,
          Raise IndexError)).
Proof. repeat split. Qed.

(** C9, as stated, fails.  The two batches differ in the prompt of lane 1
    only; in the first the machine of lane 1 rejects its prompt and the
    call raises before any row is masked, in the second the call returns:
    the row of lane 0 is not the same.  And when the lanes of the first
    batch are processed in the other order the call raises before the
    machine 0 has accepted its prompt: its state is not the same. *)
Lemma lane_independence_counterexample :
  rows rejected_prompt !! 0%nat = rows accepted_prompt !! 0%nat
  ∧ observe (__call__ (two_lanes EngineGenerationConfig_default) rejected_prompt
               (start fresh fresh ones))
    = (({| seen := [0]; done := false |}, fresh, Some 1%nat,
        [[one; one; one; one]; [one; one; one; one]]),
       [(0, CAcceptToken 0); (1, CAcceptToken 1)]%nat,
       Raise FormatterError)
  ∧ rows (scores (__call__ (two_lanes EngineGenerationConfig_default) accepted_prompt
                    (start fresh fresh ones)).1.1) !! 0%nat
    = Some [one; neg_inf; one; one]
  ∧ (__call__ (two_lanes EngineGenerationConfig_default) accepted_prompt
       (start fresh fresh ones)).2
    = Ok {| shape1 := 4; rows := [[one; neg_inf; one; one]; [one; neg_inf; one; one]] |}
  ∧ observe (__call__ (two_lanes_swapped EngineGenerationConfig_default)
               rejected_prompt_swapped (start fresh fresh ones))
    = ((fresh, fresh, Some 1%nat, [[one; one; one; one]; [one; one; one; one]]),
       [(0, CAcceptToken 1)]%nat,
       Raise FormatterError).
Proof. repeat split. Qed.

(** Lane 0 of a batch and lane 1 of another batch, in which the lanes are
    swapped and the other lane has another prompt. *)
Lemma lane_independence_witness :
  formatter_at (__call__ (two_lanes EngineGenerationConfig_default) accepted_prompt
                  (start fresh fresh ones)).1.1 0%nat
  = formatter_at (__call__ (two_lanes_swapped EngineGenerationConfig_default) swapped_prompt
                    (start fresh fresh ones)).1.1 0%nat
  ∧ rows (scores (__call__ (two_lanes EngineGenerationConfig_default) accepted_prompt
                    (start fresh fresh ones)).1.1) !! 0%nat
    = rows (scores (__call__ (two_lanes_swapped EngineGenerationConfig_default)
                      swapped_prompt (start fresh fresh ones)).1.1) !! 1%nat
  ∧ lane_calls 0 (__call__ (two_lanes EngineGenerationConfig_default) accepted_prompt
                    (start fresh fresh ones)).1.2
    = lane_calls 1 (__call__ (two_lanes_swapped EngineGenerationConfig_default)
                      swapped_prompt (start fresh fresh ones)).1.2.
Proof.
  apply (lane_independence
           (two_lanes EngineGenerationConfig_default)
           (two_lanes_swapped EngineGenerationConfig_default)
           accepted_prompt swapped_prompt
           (start fresh fresh ones) (start fresh fresh ones) _ _ _ _
           (scores (__call__ (two_lanes EngineGenerationConfig_default) accepted_prompt
                      (start fresh fresh ones)).1.1)
           (scores (__call__ (two_lanes_swapped EngineGenerationConfig_default)
                      swapped_prompt (start fresh fresh ones)).1.1)
           0%nat 1%nat 0%nat 0%nat EngineGenerationConfig_default [0]).
  - exact two_handles_NoDup.
  - exact two_handles_swapped_NoDup.
  - reflexivity.
  - split; intros [? [=]].
  - reflexivity.
  - reflexivity.
  - reflexivity.
  - reflexivity.
  - reflexivity.
  - reflexivity.
  - reflexivity.
  - reflexivity.
  - reflexivity.
  - reflexivity.
  - reflexivity.
Defined.


(** ** The extractors, composed *)

Lemma app_inv_tail_str (s t u : string) : s +:+ u = t +:+ u → s = t.
Proof.
  revert t. induction s as [|a s IH]; intros [|b t] Heq.
  - done.
  - apply (f_equal String.length) in Heq.
    rewrite app_cons_str, app_nil_str in Heq. simpl in Heq.
    rewrite length_app_str in Heq. lia.
  - apply (f_equal String.length) in Heq.
    rewrite app_cons_str, app_nil_str in Heq. simpl in Heq.
    rewrite length_app_str in Heq. lia.
  - rewrite !app_cons_str in Heq. injection Heq as -> Heq. f_equal. by apply IH.
Qed.

Lemma find_prefix (L S : string) : Str.find (L +:+ S) L = 0.
Proof.
  destruct (L +:+ S) as [|c s] eqn:E; simpl; rewrite <- E; by rewrite startswith_app.
Qed.

(** X1. When the input starts with the literal, [LiteralExtractor.extract]
    returns the rest of the input after the literal, and the literal: what
    was written as [L + S] is read back as [(S, L)].  In particular the
    empty literal succeeds on every input and consumes nothing. *)
Theorem LiteralExtractor_extract_prefix (L S : string) :
  LiteralExtractor_extract L (L +:+ S) = Some (S, VStr L).
Proof.
  unfold LiteralExtractor_extract. cbv zeta. rewrite find_prefix.
  rewrite (proj2 (Z.eqb_neq 0 (-1))) by lia.
  change (0 + Str.len L) with (Str.len "" + Str.len L).
  rewrite <- (app_nil_str (L +:+ S)) at 1.
  by rewrite slice_from_app.
Qed.

Lemma LiteralExtractor_extract_None (L S : string) :
  LiteralExtractor_extract L S = None ↔ ∀ pre suf, ¬ occurs_at S L pre suf.
Proof.
  unfold LiteralExtractor_extract. cbv zeta.
  destruct (find_spec S L) as [[Hf Hno] | (pre & suf & Hocc & _ & Hf)]; rewrite Hf.
  - done.
  - rewrite (proj2 (Z.eqb_neq _ (-1))) by (unfold Str.len; lia).
    split; [done |]. intros Hno. by destruct (Hno pre suf).
Qed.

Lemma first_present_app {A} (l1 l2 : list (option A)) :
  first_present (l1 ++ l2)
  = match first_present l1 with Some a => Some a | None => first_present l2 end.
Proof. induction l1 as [|[a|] l1 IH]; simpl; done. Qed.

Lemma ChoiceExtractor_extract_init cs capture_name nonterminal input_str :
  ChoiceExtractor_extract (ChoiceExtractor_init cs capture_name nonterminal) input_str
  = first_present (map (λ e, extract e input_str) cs).
Proof. apply extract_loop_first_present. Qed.

(** X2. A literal choice is dead when a literal that occurs in it stands
    earlier among the choices: on every input [ChoiceExtractor.extract]
    returns what it returns without the later choice, since [a + L + b]
    can only be found in an input in which [L] is found. *)
Theorem ChoiceExtractor_shadowed_literal
    (repr : string → string) (pre mid post : list Extractor) (a L b : string)
    (capture_name : option string) (nonterminal input_str : string) :
  ChoiceExtractor_extract
    (ChoiceExtractor_init
       (pre ++ LiteralExtractor repr L
            :: mid ++ LiteralExtractor repr (a +:+ L +:+ b) :: post)
       capture_name nonterminal) input_str
  = ChoiceExtractor_extract
      (ChoiceExtractor_init (pre ++ LiteralExtractor repr L :: mid ++ post)
         capture_name nonterminal) input_str.
Proof.
  rewrite !ChoiceExtractor_extract_init.
  rewrite !map_app, !map_cons, !map_app, !map_cons. simpl extract.
  rewrite !first_present_app. destruct (first_present _); [done |].
  simpl. destruct (LiteralExtractor_extract L input_str) eqn:HL; [done |].
  rewrite !first_present_app. destruct (first_present _); [done |].
  assert (LiteralExtractor_extract (a +:+ L +:+ b) input_str = None) as ->; [| done].
  apply LiteralExtractor_extract_None. intros p s Hocc.
  apply (proj1 (LiteralExtractor_extract_None _ _) HL (p +:+ a) (b +:+ s)).
  unfold occurs_at in *. by rewrite Hocc, !app_assoc_str.
Qed.

(** X3. A [ChoiceExtractor] that stands among the choices of another
    extracts as if its own choices stood in its place. *)
Theorem ChoiceExtractor_nested_flattens
    (pre post : list Extractor) (inner : ChoiceExtractor)
    (capture_name : option string) (nonterminal input_str : string) :
  ChoiceExtractor_extract
    (ChoiceExtractor_init (pre ++ ChoiceExtractor_as_Extractor inner :: post)
       capture_name nonterminal) input_str
  = ChoiceExtractor_extract
      (ChoiceExtractor_init (pre ++ choices inner ++ post) capture_name nonterminal)
      input_str.
Proof.
  rewrite !ChoiceExtractor_extract_init.
  rewrite !map_app, map_cons, !first_present_app. simpl extract.
  unfold ChoiceExtractor_extract at 1. rewrite extract_loop_first_present.
  destruct (first_present (map _ pre)); [done |]. simpl.
  by destruct (first_present (map _ (choices inner))).
Qed.


(** X5. With one capture name, or none, for both, two nonterminal
    extractors have the same reference exactly when they have the same
    base nonterminal. *)
Theorem NonterminalExtractor_reference_base (base1 base2 : string) (capture_name : option string) :
  NonterminalExtractor_kbnf_reference (NonterminalExtractor_init base1 capture_name)
  = NonterminalExtractor_kbnf_reference (NonterminalExtractor_init base2 capture_name)
  ↔ base1 = base2.
Proof.
  unfold NonterminalExtractor_kbnf_reference. split; [| by intros ->].
  destruct capture_name as [c|]; simpl; [| done].
  apply app_inv_tail_str.
Qed.


(** ** The vocabulary: dictionaries, the substitution and the two loops *)

Lemma _get_original_whitespace_characters_loops tokenizer vocab chars :
  _get_original_whitespace_characters tokenizer vocab chars
  = (replacements ← old_char_to_new_char tokenizer vocab chars;
     for_acc (rewrite_entry replacements) [] vocab).
Proof. reflexivity. Qed.

Section DictFacts.
Context {K V : Type} `{EqDecision K}.
Implicit Types d : list (K * V).

Lemma Dict_get_None k d : Dict.get k d = None ↔ k ∉ Dict.keys d.
Proof.
  unfold Dict.keys. induction d as [|[k' v] d IH]; simpl.
  - split; [intros _; apply not_elem_of_nil | done].
  - rewrite not_elem_of_cons. destruct (decide (k = k')); [| by rewrite IH; intuition].
    split; [done | by intros []].
Qed.

Lemma Dict_get_Some k v d : Dict.get k d = Some v → (k, v) ∈ d.
Proof.
  induction d as [|[k' v'] d IH]; simpl; [done |].
  destruct (decide (k = k')) as [->|].
  - intros [= ->]. by left.
  - intros Hg. right. by apply IH.
Qed.

Lemma Dict_get_set k k' v d :
  Dict.get k (Dict.set k' v d) = if decide (k = k') then Some v else Dict.get k d.
Proof.
  induction d as [|[k0 v0] d IH]; cbn [Dict.set Dict.get].
  - by destruct (decide (k = k')).
  - destruct (decide (k' = k0)) as [->|Hne]; cbn [Dict.get].
    + by destruct (decide (k = k0)).
    + destruct (decide (k = k0)) as [->|]; [by rewrite decide_False by done |].
      apply IH.
Qed.

Lemma Dict_set_nonempty k v d : Dict.set k v d ≠ [].
Proof. destruct d as [|[k' v'] d]; simpl; [done | by destruct (decide _)]. Qed.

Lemma Dict_set_elem k v d x :
  x ∈ Dict.set k v d → x = (k, v) ∨ x ∈ d.
Proof.
  induction d as [|[k' v'] d IH]; simpl.
  - intros ->%list_elem_of_singleton. by left.
  - destruct (decide (k = k')).
    + intros [->|?]%elem_of_cons; [by left | right; by right].
    + intros [->|Hx]%elem_of_cons; [right; by left |].
      destruct (IH Hx); [by left | right; by right].
Qed.

Lemma Dict_keys_set k0 k v d :
  k0 ∈ Dict.keys (Dict.set k v d) ↔ k0 = k ∨ k0 ∈ Dict.keys d.
Proof.
  unfold Dict.keys. induction d as [|[k' v'] d IH].
  - simpl. rewrite list_elem_of_singleton, elem_of_nil. intuition.
  - cbn [Dict.set]. destruct (decide (k = k')) as [->|Hne].
    + rewrite !fmap_cons, !elem_of_cons. simpl. intuition.
    + rewrite !fmap_cons, !elem_of_cons, IH. simpl. intuition.
Qed.

Lemma Dict_set_fresh k v d : k ∉ Dict.keys d → Dict.set k v d = d ++ [(k, v)].
Proof.
  unfold Dict.keys. induction d as [|[k' v'] d IH]; simpl; [done |].
  intros [Hne Hk]%not_elem_of_cons. rewrite decide_False by done. by rewrite IH.
Qed.

Lemma Dict_set_fmap {W} (h : V → W) k v d :
  Dict.set k (h v) (prod_map id h <$> d) = prod_map id h <$> Dict.set k v d.
Proof.
  induction d as [|[k' v'] d IH]; [done |].
  rewrite fmap_cons. cbn [Dict.set prod_map fst snd id].
  destruct (decide (k = k')); [done |]. by rewrite IH, fmap_cons.
Qed.
End DictFacts.

(** A dictionary filled from a list of items, one [d[key] = val] each. *)
Section Fill.
Context {K V X : Type} `{EqDecision K} (key : X → K) (val : X → V).

Lemma fill_keys (l : list X) (d : list (K * V)) k :
  k ∈ Dict.keys (fold_left (λ acc x, Dict.set (key x) (val x) acc) l d)
  ↔ k ∈ Dict.keys d ∨ k ∈ key <$> l.
Proof.
  revert d. induction l as [|x l IH]; intros d; cbn [fold_left].
  - rewrite fmap_nil, elem_of_nil. intuition.
  - rewrite IH, Dict_keys_set, fmap_cons, elem_of_cons. intuition.
Qed.

Lemma fill_elem (l : list X) (d : list (K * V)) kv :
  kv ∈ fold_left (λ acc x, Dict.set (key x) (val x) acc) l d →
  kv ∈ d ∨ ∃ x, x ∈ l ∧ kv = (key x, val x).
Proof.
  revert d. induction l as [|x l IH]; intros d; cbn [fold_left]; [by left |].
  intros [Hkv | (y & Hy & ->)]%IH.
  - apply Dict_set_elem in Hkv as [-> | ?]; [| by left].
    right. exists x. split; [by left | done].
  - right. exists y. split; [by right | done].
Qed.

Lemma fill_fresh (l : list X) (d : list (K * V)) :
  NoDup (key <$> l) → (∀ k, k ∈ key <$> l → k ∉ Dict.keys d) →
  fold_left (λ acc x, Dict.set (key x) (val x) acc) l d
  = d ++ ((λ x, (key x, val x)) <$> l).
Proof.
  revert d. induction l as [|x l IH]; intros d Hnd Hd; cbn [fold_left].
  - by rewrite fmap_nil, app_nil_r.
  - rewrite fmap_cons in Hnd, Hd. apply list.NoDup_cons in Hnd as [Hx Hnd].
    rewrite Dict_set_fresh by (apply Hd; by left).
    rewrite IH; [by rewrite fmap_cons, <- app_assoc | done |].
    intros k Hk. unfold Dict.keys. rewrite fmap_app, elem_of_app.
    intros [Hkd | Hkx].
    + apply (Hd k); [by right | done].
    + rewrite fmap_cons, fmap_nil in Hkx. apply list_elem_of_singleton in Hkx as ->. done.
Qed.

Lemma fill_fmap {W} (h : V → W) (l : list X) (d : list (K * V)) :
  fold_left (λ acc x, Dict.set (key x) (h (val x)) acc) l (prod_map id h <$> d)
  = prod_map id h <$> fold_left (λ acc x, Dict.set (key x) (val x) acc) l d.
Proof.
  revert d. induction l as [|x l IH]; intros d; cbn [fold_left]; [done |].
  by rewrite Dict_set_fmap, IH.
Qed.
End Fill.

Lemma invert_get_None {K V} `{EqDecision V} (d : list (K * V)) v :
  Dict.get v (invert d) = None ↔ v ∉ d.*2.
Proof.
  rewrite Dict_get_None. unfold invert.
  rewrite (fill_keys (λ kv : K * V, kv.2) (λ kv, kv.1) d [] v).
  unfold Dict.keys. simpl. rewrite elem_of_nil. intuition.
Qed.

Lemma invert_get_Some {K V} `{EqDecision V} (d : list (K * V)) v k :
  Dict.get v (invert d) = Some k → (k, v) ∈ d.
Proof.
  intros Hg%Dict_get_Some. unfold invert in Hg.
  apply (fill_elem (λ kv : K * V, kv.2) (λ kv, kv.1)) in Hg
    as [Hg | ([k' v'] & Hx & [= -> ->])]; [| done].
  by apply elem_of_nil in Hg.
Qed.

(** *** The substitution *)

Section ReFacts.
Variables (alts : list string) (repl : string → outcome string).

Lemma match_here_elem must_advance s k :
  Re.match_here alts must_advance s = Some k → k ∈ alts ∧ Str.startswith s k = true.
Proof.
  unfold Re.match_here. intros [Hin Hb]%find_some.
  apply andb_true_iff in Hb as [Hb _]. split; [by apply list_elem_of_In | done].
Qed.

Lemma match_here_None must_advance s :
  Forall (λ k, Str.startswith s k = false) alts →
  Re.match_here alts must_advance s = None.
Proof.
  unfold Re.match_here. induction 1 as [|k ks Hk _ IH]; simpl; [done |].
  by rewrite Hk.
Qed.

Lemma sub_loop_Ok :
  (∀ k, k ∈ alts → ∃ r, repl k = Ok r) →
  ∀ s skip, ∃ r, Re.sub_loop alts repl s skip = Ok r.
Proof.
  intros Hrepl. induction s as [|c s IH]; intros [|n]; simpl.
  - destruct (Re.match_here alts false "") as [k|] eqn:Hm; [| by eexists].
    apply match_here_elem in Hm as [Hk _]. destruct (Hrepl k Hk) as [r Hr].
    destruct k as [|a k]; rewrite Hr; simpl; [| by eexists].
    destruct (Re.match_here alts true "") as [k'|] eqn:Hm'; [| by eexists].
    apply match_here_elem in Hm' as [Hk' _]. destruct (Hrepl k' Hk') as [r' ->].
    simpl. by eexists.
  - by eexists.
  - destruct (IH 0%nat) as [rest Hrest].
    destruct (Re.match_here alts false (String c s)) as [k|] eqn:Hm.
    + apply match_here_elem in Hm as [Hk _]. destruct (Hrepl k Hk) as [r Hr].
      destruct k as [|a k]; rewrite Hr; simpl.
      * destruct (Re.match_here alts true (String c s)) as [k'|] eqn:Hm'.
        -- apply match_here_elem in Hm' as [Hk' _]. destruct (Hrepl k' Hk') as [r' ->].
           simpl. destruct (IH (String.length k' - 1)%nat) as [rest' ->]. simpl. by eexists.
        -- rewrite Hrest. simpl. by eexists.
      * destruct (IH (String.length k - 0)%nat) as [rest' ->]. simpl. by eexists.
    + rewrite Hrest. simpl. by eexists.
  - apply IH.
Qed.

End ReFacts.

Lemma alternatives_keys {V} (d : list (string * V)) :
  d ≠ [] → Re.alternatives (Dict.keys d) = Dict.keys d.
Proof. by destruct d. Qed.

Lemma find_ge s sub : -1 ≤ Str.find s sub.
Proof.
  induction s as [|c s IH]; simpl; destruct (Str.startswith _ _); try lia.
  destruct (Str.find s sub =? -1) eqn:E; lia.
Qed.

Lemma find_absent s sub : Str.find s sub = -1 → Str.startswith s sub = false.
Proof. destruct s; simpl; by destruct (Str.startswith _ _). Qed.

Lemma find_absent_cons c s sub : Str.find (String c s) sub = -1 → Str.find s sub = -1.
Proof.
  simpl. destruct (Str.startswith _ _); [done |].
  pose proof (find_ge s sub). destruct (Str.find s sub =? -1) eqn:E; lia.
Qed.

Lemma _multiple_replace_lookup (replacements : list (string * string)) k :
  k ∈ Dict.keys replacements →
  ∃ new, match Dict.get k replacements with
         | Some new => Ok new
         | None => Raise KeyError
         end = Ok new.
Proof.
  intros Hk. destruct (Dict.get k replacements) as [new|] eqn:Hg; [by eexists |].
  by apply Dict_get_None in Hg.
Qed.

Lemma _multiple_replace_Ok (replacements : list (string * string)) (text : string) :
  replacements ≠ [] → ∃ new, _multiple_replace replacements text = Ok new.
Proof.
  intros Hne. unfold _multiple_replace, Re.sub.
  rewrite alternatives_keys by done.
  apply sub_loop_Ok. apply _multiple_replace_lookup.
Qed.

(** X6. [_multiple_replace] raises, and then [KeyError], exactly when the
    dictionary of replacements is empty; with any replacement registered
    it returns a text, whatever the text is. *)
Theorem _multiple_replace_raises_iff_empty (replacements : list (string * string)) (text : string) :
  (replacements = [] ∧ _multiple_replace replacements text = Raise KeyError)
  ∨ (replacements ≠ [] ∧ ∃ new, _multiple_replace replacements text = Ok new).
Proof.
  destruct (decide (replacements = [])) as [->|Hne].
  - left. split; [done | apply _multiple_replace_empty].
  - right. split; [done |]. by apply _multiple_replace_Ok.
Qed.

Lemma sub_loop_no_match alts repl text :
  alts ≠ [] →
  Forall (λ k, Str.find text k = -1) alts →
  Re.sub_loop alts repl text 0 = Ok text.
Proof.
  intros Hne. induction text as [|c text IH]; intros Habsent.
  - simpl. rewrite match_here_None; [done |].
    eapply list.Forall_impl; [exact Habsent |]. apply find_absent.
  - simpl. rewrite match_here_None.
    + rewrite IH; [done |].
      eapply list.Forall_impl; [exact Habsent |]. intros k. apply find_absent_cons.
    + eapply list.Forall_impl; [exact Habsent |]. intros k. apply find_absent.
Qed.

(** X7. On a text in which no key occurs ([text.find(key)] is -1 for
    every key of a dictionary that is not empty) [_multiple_replace]
    returns the text unchanged. *)
Theorem _multiple_replace_no_occurrence (replacements : list (string * string)) (text : string) :
  replacements ≠ [] →
  Forall (λ k, Str.find text k = -1) (Dict.keys replacements) →
  _multiple_replace replacements text = Ok text.
Proof.
  intros Hne Habsent. unfold _multiple_replace, Re.sub.
  rewrite alternatives_keys by done. apply sub_loop_no_match; [| done].
  by destruct replacements.
Qed.

Lemma find_unique {A} (f : A → bool) (l : list A) a :
  a ∈ l → f a = true → (∀ x, x ∈ l → f x = true → x = a) → List.find f l = Some a.
Proof.
  induction l as [|x l IH]; intros Ha Hfa Huniq; [by apply elem_of_nil in Ha |].
  simpl. destruct (f x) eqn:Hfx.
  - f_equal. apply Huniq; [by left | done].
  - apply elem_of_cons in Ha as [-> | Ha]; [congruence |].
    apply IH; [done | done |]. intros y Hy. apply Huniq. by right.
Qed.

Lemma startswith_refl s : Str.startswith s s = true.
Proof. rewrite <- (app_empty_r s) at 1. apply startswith_app. Qed.

Lemma sub_loop_skip alts repl p t :
  Re.sub_loop alts repl (p +:+ t) (String.length p) = Re.sub_loop alts repl t 0.
Proof.
  induction p as [|a p IH]; [done |].
  rewrite app_cons_str. simpl. apply IH.
Qed.

Lemma match_here_advance_empty alts : Re.match_here alts true "" = None.
Proof.
  unfold Re.match_here. induction alts as [|k ks IH]; [done |].
  simpl. by destruct k.
Qed.

(** X8. A key of which no other key is a prefix is replaced, as a text of
    its own, by exactly its value: the value is not scanned again, also
    when keys occur in it. *)
Theorem _multiple_replace_key (replacements : list (string * string)) (k new : string) :
  Dict.get k replacements = Some new →
  Forall (λ k', Str.startswith k k' = true → k' = k) (Dict.keys replacements) →
  _multiple_replace replacements k = Ok new.
Proof.
  intros Hget Hprefix. rewrite list.Forall_forall in Hprefix.
  assert (Hk : k ∈ Dict.keys replacements).
  { apply Dict_get_Some in Hget. apply list_elem_of_fmap. by exists (k, new). }
  assert (Hne : replacements ≠ []) by (by destruct replacements).
  unfold _multiple_replace, Re.sub. rewrite alternatives_keys by done.
  assert (Hfirst : Re.match_here (Dict.keys replacements) false k = Some k).
  { apply find_unique; [done | by rewrite startswith_refl |].
    intros k' Hk' Hb. apply andb_true_iff in Hb as [Hb _]. by apply Hprefix. }
  destruct k as [|a k].
  - simpl. rewrite Hfirst, Hget. simpl.
    rewrite match_here_advance_empty. simpl. by rewrite app_empty_r.
  - simpl. rewrite Hfirst, Hget. simpl. rewrite Nat.sub_0_r.
    pose proof (sub_loop_skip (Dict.keys replacements)
                  (λ group, match Dict.get group replacements with
                            | Some new => Ok new
                            | None => Raise KeyError
                            end) k "") as Hskip.
    rewrite app_empty_r in Hskip. rewrite Hskip. simpl.
    rewrite match_here_None; [simpl; by rewrite app_empty_r |].
    apply list.Forall_forall. intros k' Hk'.
    destruct k' as [|b k']; [| done].
    by specialize (Hprefix "" Hk' eq_refl).
Qed.

(** *** The two loops of the canonicalisation *)

Lemma register_char_spec tokenizer vocab old char :
  (single_token_known tokenizer vocab char
   ∧ register_char tokenizer (invert vocab) old char
     = Ok (match spelling tokenizer vocab char with
           | Some char_token => Dict.set char_token char old
           | None => old
           end))
  ∨ (¬ single_token_known tokenizer vocab char
     ∧ register_char tokenizer (invert vocab) old char = Raise KeyError).
Proof.
  unfold register_char, single_token_known, spelling.
  destruct (encode tokenizer char) as [|char_id [|? ?]] eqn:He.
  - left. by split.
  - destruct (Dict.get char_id (invert vocab)) as [char_token|] eqn:Hg.
    + left. split.
      { intros ? [= <-]. apply invert_get_Some in Hg.
        apply list_elem_of_fmap. by exists (char_token, char_id). }
      by destruct (decide (char_token ≠ char)).
    + right. split; [| done]. intros Hknown.
      apply invert_get_None in Hg. by apply Hg, Hknown.
  - left. by split.
Qed.

Lemma old_char_to_new_char_spec tokenizer vocab chars old :
  (Forall (single_token_known tokenizer vocab) chars
   ∧ ∃ d, for_acc (register_char tokenizer (invert vocab)) old chars = Ok d
          ∧ ((d = [] ∧ old = [] ∧ ¬ Exists (respelled tokenizer vocab) chars)
             ∨ (d ≠ [] ∧ (old ≠ [] ∨ Exists (respelled tokenizer vocab) chars))))
  ∨ (¬ Forall (single_token_known tokenizer vocab) chars
     ∧ for_acc (register_char tokenizer (invert vocab)) old chars = Raise KeyError).
Proof.
  revert old. induction chars as [|char chars IH]; intros old.
  - left. split; [constructor |]. exists old. split; [done |].
    destruct old as [|x old]; [left | right].
    + split_and!; [done | done |]. intros Hex. by apply Exists_nil in Hex.
    + split; [done | by left].
  - cbn [for_acc].
    destruct (register_char_spec tokenizer vocab old char)
      as [(Hknown & ->) | (Hunknown & ->)].
    + cbn. unfold respelled.
      destruct (spelling tokenizer vocab char) as [char_token|] eqn:Hs.
      * destruct (IH (Dict.set char_token char old))
          as [(Hall & d & Hd & Hcases) | (Hnot & Hraise)].
        -- left. split; [by constructor |]. exists d. split; [done |]. right.
           destruct Hcases as [(_ & Hset & _) | (? & _)].
           ++ by apply Dict_set_nonempty in Hset.
           ++ split; [done |]. right. left. by rewrite Hs.
        -- right. split; [| done]. intros Hall. by apply list.Forall_cons in Hall as [_ ?].
      * destruct (IH old) as [(Hall & d & Hd & Hcases) | (Hnot & Hraise)].
        -- left. split; [by constructor |]. exists d. split; [done |].
           destruct Hcases as [(? & ? & Hno) | (? & [? | Hex])].
           ++ left. split_and!; [done | done |].
              intros Hex. apply Exists_cons in Hex as [Hhd|?]; [| done].
              rewrite Hs in Hhd. by destruct Hhd.
           ++ right. split; [done | by left].
           ++ right. split; [done |]. right. by right.
        -- right. split; [| done]. intros Hall. by apply list.Forall_cons in Hall as [_ ?].
    + right. split; [| done]. intros Hall. by apply list.Forall_cons in Hall as [? _].
Qed.

Lemma rewrite_entry_Ok replacements acc kv new_k :
  _multiple_replace replacements kv.1 = Ok new_k →
  rewrite_entry replacements acc kv = Ok (Dict.set new_k kv.2 acc).
Proof. unfold rewrite_entry. by intros ->. Qed.

Lemma rewrite_entry_Raise replacements acc kv e :
  _multiple_replace replacements kv.1 = Raise e →
  rewrite_entry replacements acc kv = Raise e.
Proof. unfold rewrite_entry. by intros ->. Qed.

Lemma rewrite_loop_Ok replacements vocab acc :
  replacements ≠ [] → ∃ new_vocab, for_acc (rewrite_entry replacements) acc vocab = Ok new_vocab.
Proof.
  intros Hne. revert acc. induction vocab as [|kv vocab IH]; intros acc; [by eexists |].
  cbn [for_acc].
  destruct (_multiple_replace_Ok replacements kv.1 Hne) as [new_k Hk].
  rewrite (rewrite_entry_Ok _ _ _ _ Hk). cbn. apply IH.
Qed.

Lemma rewrite_loop_Raise vocab acc :
  vocab ≠ [] → for_acc (rewrite_entry []) acc vocab = Raise KeyError.
Proof.
  destruct vocab as [|kv vocab]; [done |]. intros _. cbn [for_acc].
  by rewrite (rewrite_entry_Raise [] acc kv KeyError (_multiple_replace_empty _)).
Qed.

Lemma create_engine_vocabulary_loops tokenizer :
  create_engine_vocabulary tokenizer
  = (replacements ← old_char_to_new_char tokenizer (get_vocab tokenizer) whitespace;
     new_vocab ← for_acc (rewrite_entry replacements) [] (get_vocab tokenizer);
     Ok {| id_to_token :=
             fold_left (λ d kv, Dict.set kv.2 (encode_utf8 kv.1) d) new_vocab [];
           id_to_token_string := invert new_vocab |}).
Proof.
  unfold create_engine_vocabulary. rewrite _get_original_whitespace_characters_loops.
  fold whitespace. by destruct (old_char_to_new_char _ _ _).
Qed.

(** X9. [create_engine_vocabulary] returns a vocabulary exactly when
    every whitespace string that the tokenizer encodes as one token is
    encoded as an id of the vocabulary, and the vocabulary is empty or one
    of the whitespace strings is spelled otherwise in it.  In every other
    case it raises [KeyError]: for an id that the vocabulary does not
    hold, or, on a vocabulary that is not empty, when no whitespace string
    is respelled. *)
Theorem create_engine_vocabulary_outcome (tokenizer : Tokenizer) :
  let vocab := get_vocab tokenizer in
  (Forall (single_token_known tokenizer vocab) whitespace
   ∧ (vocab = [] ∨ Exists (respelled tokenizer vocab) whitespace)
   ∧ ∃ v, create_engine_vocabulary tokenizer = Ok v)
  ∨ ((¬ Forall (single_token_known tokenizer vocab) whitespace
      ∨ (vocab ≠ [] ∧ ¬ Exists (respelled tokenizer vocab) whitespace))
     ∧ create_engine_vocabulary tokenizer = Raise KeyError).
Proof.
  intros vocab. rewrite create_engine_vocabulary_loops. fold vocab.
  unfold old_char_to_new_char.
  destruct (old_char_to_new_char_spec tokenizer vocab whitespace [])
    as [(Hknown & d & -> & Hcases) | (Hunknown & ->)]; [| right; split; [by left | done]].
  cbn. destruct Hcases as [(-> & _ & Hno) | (Hne & [? | Hex])]; [| done |].
  - destruct vocab as [|kv rest] eqn:Evocab.
    + left. split_and!; [done | by left | by eexists].
    + right. split; [right; by split |].
      by rewrite rewrite_loop_Raise.
  - left. split_and!; [done | by right |].
    destruct (rewrite_loop_Ok d vocab [] Hne) as [new_vocab ->]. by eexists.
Qed.

(** X10. The two tables of the vocabulary that
    [create_engine_vocabulary] returns go together: they list the same ids
    in the same order, and the bytes of a token are the UTF-8 encoding of
    its string. *)
Theorem create_engine_vocabulary_tables_agree (tokenizer : Tokenizer) (v : Vocabulary) :
  create_engine_vocabulary tokenizer = Ok v →
  id_to_token v = prod_map id encode_utf8 <$> id_to_token_string v.
Proof.
  unfold create_engine_vocabulary.
  destruct (_get_original_whitespace_characters _ _ _) as [new_vocab|]; [| done].
  intros [= <-]. cbn [id_to_token id_to_token_string]. unfold invert.
  apply (fill_fmap (λ kv : string * Z, kv.2) (λ kv, kv.1) encode_utf8 new_vocab []).
Qed.

Lemma rewrite_loop_elem replacements vocab acc new_vocab :
  for_acc (rewrite_entry replacements) acc vocab = Ok new_vocab →
  ∀ text id, (text, id) ∈ new_vocab →
    (text, id) ∈ acc
    ∨ ∃ token, (token, id) ∈ vocab ∧ _multiple_replace replacements token = Ok text.
Proof.
  revert acc. induction vocab as [|[token id0] vocab IH]; intros acc.
  - intros [= <-]. by left.
  - cbn [for_acc].
    destruct (_multiple_replace replacements token) as [new_k|] eqn:Hk.
    2: { by rewrite (rewrite_entry_Raise _ acc (token, id0) _ Hk). }
    rewrite (rewrite_entry_Ok _ acc (token, id0) _ Hk).
    cbn. intros Hloop text id Hin.
    destruct (IH _ Hloop text id Hin) as [Hacc | (token' & Hin' & Hr)].
    + apply Dict_set_elem in Hacc as [[= -> ->] | Hacc]; [| by left].
      right. exists token. split; [by left | done].
    + right. exists token'. split; [by right | done].
Qed.

(** X11. Every entry of the returned vocabulary comes from the
    tokenizer: its id is the id of a token of the tokenizer's vocabulary,
    and its string is that token rewritten by the whitespace replacements.
    No id is invented. *)
Theorem create_engine_vocabulary_entries (tokenizer : Tokenizer) (v : Vocabulary) :
  create_engine_vocabulary tokenizer = Ok v →
  ∃ replacements,
    old_char_to_new_char tokenizer (get_vocab tokenizer) whitespace = Ok replacements
    ∧ ∀ id text, (id, text) ∈ id_to_token_string v →
        ∃ token, (token, id) ∈ get_vocab tokenizer
                 ∧ _multiple_replace replacements token = Ok text.
Proof.
  rewrite create_engine_vocabulary_loops.
  destruct (old_char_to_new_char _ _ _) as [replacements|]; [| done]. cbn.
  destruct (for_acc _ _ _) as [new_vocab|] eqn:Hloop; [| done]. cbn.
  intros [= <-]. exists replacements. split; [done |].
  cbn [id_to_token_string]. intros id text Hin. unfold invert in Hin.
  apply (fill_elem (λ kv : string * Z, kv.2) (λ kv, kv.1)) in Hin
    as [Hin | ([text' id'] & Hin & [= -> ->])]; [by apply elem_of_nil in Hin |].
  destruct (rewrite_loop_elem _ _ _ _ Hloop _ _ Hin) as [Hacc | ?]; [| done].
  by apply elem_of_nil in Hacc.
Qed.

Lemma rewrite_loop_Forall2 replacements vocab new_keys acc :
  Forall2 (λ kv new_k, _multiple_replace replacements kv.1 = Ok new_k) vocab new_keys →
  for_acc (rewrite_entry replacements) acc vocab
  = Ok (fold_left (λ acc x, Dict.set x.1 x.2 acc) (zip new_keys vocab.*2) acc).
Proof.
  intros Hall. revert acc.
  induction Hall as [|kv new_k vocab new_keys Hk _ IH]; intros acc; [done |].
  cbn [for_acc]. rewrite (rewrite_entry_Ok _ _ _ _ Hk). cbn. by rewrite IH.
Qed.

Lemma zip_swap {A B} (l : list A) (k : list B) :
  (λ x, (x.2, x.1)) <$> zip l k = zip k l.
Proof.
  revert k. induction l as [|a l IH]; intros [|b k]; try done.
  cbn. f_equal. apply IH.
Qed.

Lemma zip_fmap_r' {A B C} (h : B → C) (l : list A) (k : list B) :
  prod_map id h <$> zip l k = zip l (h <$> k).
Proof.
  revert k. induction l as [|a l IH]; intros [|b k]; try done.
  cbn. f_equal. apply IH.
Qed.

Lemma fmap_pair_eta {A B} (l : list (A * B)) : (λ x, (x.1, x.2)) <$> l = l.
Proof. induction l as [|[a b] l IH]; [done |]. cbn. by f_equal. Qed.

(** X12. When the ids of the tokenizer's vocabulary are pairwise
    distinct, and so are its tokens once they are rewritten,
    [create_engine_vocabulary] returns, in the order of the vocabulary,
    every id with its rewritten token and with the UTF-8 bytes of it. *)
Theorem create_engine_vocabulary_rewrites
    (tokenizer : Tokenizer) (replacements : list (string * string)) (new_keys : list string) :
  old_char_to_new_char tokenizer (get_vocab tokenizer) whitespace = Ok replacements →
  Forall2 (λ kv new_k, _multiple_replace replacements kv.1 = Ok new_k)
    (get_vocab tokenizer) new_keys →
  NoDup new_keys →
  NoDup (get_vocab tokenizer).*2 →
  create_engine_vocabulary tokenizer
  = Ok {| id_to_token := zip (get_vocab tokenizer).*2 (encode_utf8 <$> new_keys);
          id_to_token_string := zip (get_vocab tokenizer).*2 new_keys |}.
Proof.
  intros Hold Hall Hkeys Hids. rewrite create_engine_vocabulary_loops, Hold. cbn.
  rewrite (rewrite_loop_Forall2 _ _ _ _ Hall). cbn.
  assert (Hlen := list.Forall2_length _ _ _ Hall).
  assert (Hnew : fold_left (λ acc x, Dict.set x.1 x.2 acc)
                   (zip new_keys (get_vocab tokenizer).*2) []
                 = zip new_keys (get_vocab tokenizer).*2).
  { rewrite (fill_fresh (λ x : string * Z, x.1) (λ x, x.2)).
    - by rewrite app_nil_l, fmap_pair_eta.
    - rewrite fst_zip; [done |]. rewrite length_fmap. lia.
    - intros k _. apply not_elem_of_nil. }
  rewrite Hnew.
  assert (Hinv : invert (zip new_keys (get_vocab tokenizer).*2)
                 = zip (get_vocab tokenizer).*2 new_keys).
  { unfold invert. rewrite (fill_fresh (λ x : string * Z, x.2) (λ x, x.1)).
    - by rewrite app_nil_l, zip_swap.
    - rewrite snd_zip; [done |]. rewrite length_fmap. lia.
    - intros k _. apply not_elem_of_nil. }
  f_equal. f_equal; [| done].
  rewrite <- (zip_fmap_r' encode_utf8 _ new_keys), <- Hinv. unfold invert.
  apply (fill_fmap (λ kv : string * Z, kv.2) (λ kv, kv.1) encode_utf8 _ []).
Qed.

Lemma for_acc_cons_Ok {A B} (body : B → A → outcome B) acc acc' a l :
  body acc a = Ok acc' → for_acc body acc (a :: l) = for_acc body acc' l.
Proof. intros Hbody. cbn [for_acc]. by rewrite Hbody. Qed.

Lemma for_acc_cons_Raise {A B} (body : B → A → outcome B) acc e a l :
  body acc a = Raise e → for_acc body acc (a :: l) = Raise e.
Proof. intros Hbody. cbn [for_acc]. by rewrite Hbody. Qed.

Lemma old_char_to_new_char_lookup tokenizer vocab chars old replacements char_token :
  for_acc (register_char tokenizer (invert vocab)) old chars = Ok replacements →
  Dict.get char_token replacements
  = match list.last (filter (λ char, spelling tokenizer vocab char = Some char_token) chars) with
    | Some char => Some char
    | None => Dict.get char_token old
    end.
Proof.
  revert old. induction chars as [|char chars IH]; intros old.
  - by intros [= <-].
  - destruct (register_char_spec tokenizer vocab old char)
      as [(_ & Hreg) | (_ & Hreg)];
      [| by rewrite (for_acc_cons_Raise _ _ _ _ _ Hreg)].
    rewrite (for_acc_cons_Ok _ _ _ _ _ Hreg).
    intros Hloop. rewrite (IH _ Hloop).
    destruct (decide (spelling tokenizer vocab char = Some char_token)) as [Hs|Hs].
    + rewrite filter_cons_True by done. rewrite last_cons.
      destruct (list.last _); [done |].
      rewrite Hs, Dict_get_set. by rewrite decide_True.
    + rewrite filter_cons_False by done.
      destruct (list.last _); [done |].
      destruct (spelling tokenizer vocab char) as [char_token'|]; [| done].
      rewrite Dict_get_set. rewrite decide_False; [done |]. by intros ->.
Qed.

(** X13. The dictionary that the first loop of
    [_get_original_whitespace_characters] builds maps a spelling to the
    last of the given strings, in their order, that the tokenizer encodes
    as one token with that spelling, and it has no other key: when two
    strings share a spelling the later one is the replacement. *)
Theorem old_char_to_new_char_last_wins
    (tokenizer : Tokenizer) (vocab : list (string * Z)) (chars : list string)
    (replacements : list (string * string)) (char_token : string) :
  old_char_to_new_char tokenizer vocab chars = Ok replacements →
  Dict.get char_token replacements
  = list.last (filter (λ char, spelling tokenizer vocab char = Some char_token) chars).
Proof.
  intros Hloop. unfold old_char_to_new_char in Hloop.
  rewrite (old_char_to_new_char_lookup _ _ _ _ _ char_token Hloop).
  by destruct (list.last _).
Qed.


(** ** The logits processor: construction, frame and failure *)

(** X14. [FormattersLogitsProcessor.__init__] stores the formatters and
    the end-of-sequence id; without [configs] every lane gets the default
    configuration; it raises, and then [AssertionError], exactly when
    [configs] is given with another length than the formatters.  A
    processor that is built has as many configurations as formatters. *)
Theorem FormattersLogitsProcessor_init_lanes
    (formatters : list handle) (eos_token_id : Z)
    (given : option (list EngineGenerationConfig)) :
  match FormattersLogitsProcessor_init formatters eos_token_id given with
  | Ok self =>
      _formatters self = formatters
      ∧ _eos_token_id self = eos_token_id
      ∧ length (configs self) = length (_formatters self)
      ∧ configs self
        = default (replicate (length formatters) EngineGenerationConfig_default) given
  | Raise e =>
      e = AssertionError
      ∧ ∃ l, given = Some l ∧ length l ≠ length formatters
  end.
Proof.
  unfold FormattersLogitsProcessor_init. destruct given as [l|]; simpl.
  - destruct (decide _) as [Hlen|Hlen]; simpl; [done |]. split; [done |]. by exists l.
  - rewrite decide_True by (by rewrite length_map). simpl. split_and!; try done.
    + by rewrite length_map.
    + induction formatters as [|h hs IH]; [done |]. simpl. by f_equal.
Qed.

Section ProcessorProperties.
Context {F : Type} `{Formatter F}.
Implicit Types st : state F.
Implicit Types evs : list event.

Lemma update_formatters_run self input_ids st :
  update_formatters self input_ids st
  = if bool_decide (shape0 input_ids = length (_formatters self)) then
      match _last_input_id_length st with
      | None =>
          for_each first_iteration_body
            (enumerate (zip (zip (_formatters self) (configs self)) (rows input_ids)))
            (with_length (shape1 input_ids) st)
      | Some n =>
          if bool_decide (shape1 input_ids = (n + 1)%nat) then
            (column ← last_column input_ids;
             for_each (later_iteration_body (_eos_token_id self))
               (enumerate (zip (_formatters self) column)))
              (with_length (n + 1) st)
          else (st, [], Raise AssertionError)
      end
    else (st, [], Raise AssertionError).
Proof.
  unfold update_formatters, assert_.
  destruct (bool_decide (shape0 input_ids = _)); [| done].
  unfold mbind at 1, M_bind. simpl. unfold mbind at 1, M_bind. simpl.
  destruct (_last_input_id_length st) as [n|] eqn:Hlast.
  - destruct (bool_decide (shape1 input_ids = _)); [| done].
    unfold mbind at 1, M_bind. simpl. unfold mbind at 1, M_bind. simpl.
    unfold with_length.
    by destruct ((last_column input_ids ≫= _) _) as [[st2 evs2] o].
  - unfold mbind at 1, M_bind. simpl. unfold with_length.
    by destruct (for_each _ _ _) as [[st2 evs2] o].
Qed.

Lemma call_run self input_ids st :
  __call__ self input_ids st
  = match update_formatters self input_ids st with
    | (st1, evs1, Ok _) =>
        match mask_scores self st1 with
        | (st2, evs2, Ok _) => (st2, evs1 ++ evs2, Ok (scores st2))
        | (st2, evs2, Raise e) => (st2, evs1 ++ evs2, Raise e)
        end
    | (st1, evs1, Raise e) => (st1, evs1, Raise e)
    end.
Proof.
  unfold __call__. unfold mbind at 1, M_bind.
  destruct (update_formatters self input_ids st) as [[st1 evs1] [[]|e]]; [| done].
  unfold mbind at 1, M_bind.
  destruct (mask_scores self st1) as [[st2 evs2] [[]|e]]; [| done].
  simpl. by rewrite app_nil_r.
Qed.

(** *** What a loop over the lanes leaves as it was *)

Section LoopFrame.
Context {A : Type} (body : nat * A → M F unit) (hd : A → handle).
Hypothesis body_confined : ∀ k x, confined (hd x) k (body (k, x)).

Lemma loop_frame l n st :
  let st' := (for_each body (enumerate_from n l) st).1.1 in
  (∀ h, h ∉ hd <$> l → formatter_at st' h = formatter_at st h)
  ∧ (∀ i, (i < n ∨ n + length l ≤ i)%nat →
       rows (scores st') !! i = rows (scores st) !! i).
Proof.
  revert n st. induction l as [|x l IH]; intros n st; simpl; [done |].
  destruct (body_confined n x st) as [_ (Hf & Hr & _)].
  destruct (body (n, x) st) as [[st1 evs1] [[]|e]] eqn:Eb.
  - rewrite (bind_run _ _ _ _ _ _ Eb). simpl in *.
    destruct (IH (S n) st1) as [IHf IHr]. split.
    + intros h [Hx Hh]%not_elem_of_cons. rewrite IHf by done. by apply Hf.
    + intros i Hi. rewrite IHr by lia. apply Hr. lia.
  - rewrite (bind_Raise _ _ _ _ _ _ Eb). simpl in *. split.
    + intros h [Hx Hh]%not_elem_of_cons. by apply Hf.
    + intros i Hi. apply Hr. lia.
Qed.

(** A loop that returns has run its body for every position. *)
Lemma loop_Ok_all (P : nat → state F → Prop) l n st st' evs :
  (∀ k x s s' e, body (k, x) s = (s', e, Ok ()) → P k s) →
  (∀ k x s k', P k' (body (k, x) s).1.1 → P k' s) →
  for_each body (enumerate_from n l) st = (st', evs, Ok ()) →
  ∀ i, (i < length l)%nat → P (n + i)%nat st.
Proof.
  intros Hbody Hback. revert n st evs.
  induction l as [|x l IH]; intros n st evs Hrun i Hi; simpl in Hi; [lia |].
  simpl in Hrun. apply bind_Ok in Hrun as (st1 & evs1 & [] & evs2 & Hb & Hrest & ->).
  destruct i as [|i].
  - rewrite Nat.add_0_r. by eapply Hbody.
  - pose proof (IH (S n) st1 evs2 Hrest i ltac:(lia)) as HP.
    replace (n + S i)%nat with (S n + i)%nat by lia.
    apply (Hback n x). by rewrite Hb.
Qed.
End LoopFrame.

(** *** The update of the formatters and the scores *)

Lemma keeps_scores_ret {A} (a : A) : keeps_scores (mret a : M F A).
Proof. by intros st. Qed.

Lemma keeps_scores_bind {A B} (m : M F A) (f : A → M F B) :
  keeps_scores m → (∀ a, keeps_scores (f a)) → keeps_scores (m ≫= f).
Proof.
  intros Hm Hf st. specialize (Hm st).
  destruct (m st) as [[st1 evs1] [a|e]] eqn:Em.
  - rewrite (bind_run _ _ _ _ _ _ Em). simpl in *. by rewrite Hf.
  - by rewrite (bind_Raise _ _ _ _ _ _ Em).
Qed.

Lemma keeps_scores_when b (m : M F unit) : keeps_scores m → keeps_scores (when b m).
Proof. destruct b; [done | intros _; apply keeps_scores_ret]. Qed.

Lemma keeps_scores_for_each {A} (body : A → M F unit) l :
  (∀ a, keeps_scores (body a)) → keeps_scores (for_each body l).
Proof.
  intros Hbody. induction l as [|a l IH]; simpl.
  - apply keeps_scores_ret.
  - apply keeps_scores_bind; [apply Hbody | by intros _].
Qed.

Lemma keeps_scores_accept_token lane h token :
  keeps_scores (fmt_accept_token lane h token).
Proof. intros st. unfold fmt_accept_token. by destruct (accept_token _ _). Qed.

Lemma keeps_scores_first_iteration_body item : keeps_scores (first_iteration_body item).
Proof.
  destruct item as [lane [[h config] prompt]]. unfold first_iteration_body.
  apply keeps_scores_bind; [| intros _].
  - apply keeps_scores_when, keeps_scores_bind; [by intros st |].
    intros b. apply keeps_scores_when. by intros st.
  - apply keeps_scores_when, keeps_scores_for_each. intros token.
    apply keeps_scores_accept_token.
Qed.

Lemma keeps_scores_later_iteration_body eos item :
  keeps_scores (later_iteration_body eos item).
Proof.
  destruct item as [lane [h token]].
  apply keeps_scores_when, keeps_scores_accept_token.
Qed.

Lemma keeps_scores_update_formatters self input_ids :
  keeps_scores (update_formatters self input_ids).
Proof.
  unfold update_formatters.
  apply keeps_scores_bind; [| intros _; apply keeps_scores_bind; [| intros [n|]]].
  - unfold assert_. intros st. by destruct (bool_decide _).
  - by intros st.
  - apply keeps_scores_bind; [| intros _; apply keeps_scores_bind; [| intros _; apply keeps_scores_bind]].
    + unfold assert_. intros st. by destruct (bool_decide _).
    + by intros st.
    + unfold last_column. intros st.
      destruct (shape1 input_ids); [done |]. by destruct (mapM _ _).
    + intros column. apply keeps_scores_for_each, keeps_scores_later_iteration_body.
  - apply keeps_scores_bind; [by intros st | intros _].
    apply keeps_scores_for_each, keeps_scores_first_iteration_body.
Qed.

(** *** The stored length *)

Lemma update_formatters_refused self input_ids st :
  ¬ preconditions self input_ids st →
  update_formatters self input_ids st = (st, [], Raise AssertionError).
Proof.
  intros Hpre. rewrite update_formatters_run.
  destruct (bool_decide (shape0 input_ids = _)) eqn:Hlanes; [| done].
  apply bool_decide_eq_true in Hlanes.
  destruct (_last_input_id_length st) as [n|] eqn:Hlast.
  - destruct (bool_decide (shape1 input_ids = _)) eqn:Hlength; [| done].
    apply bool_decide_eq_true in Hlength. destruct Hpre. split; [done |].
    by rewrite Hlast.
  - destruct Hpre. split; [done |]. by rewrite Hlast.
Qed.

Lemma last_column_state input_ids st : (last_column input_ids st).1.1 = st.
Proof.
  unfold last_column. destruct (shape1 input_ids); [done |]. by destruct (mapM _ _).
Qed.

Lemma update_formatters_length self input_ids st :
  preconditions self input_ids st →
  _last_input_id_length (update_formatters self input_ids st).1.1
  = Some (shape1 input_ids).
Proof.
  intros [Hlanes Hlength]. rewrite update_formatters_run.
  rewrite bool_decide_true by done.
  destruct (_last_input_id_length st) as [n|].
  - rewrite bool_decide_true by done.
    destruct (last_column input_ids (with_length (n + 1) st)) as [[st1 evs1] [column|e]] eqn:Hcol.
    + rewrite (bind_run _ _ _ _ _ _ Hcol). cbn [fst snd]. unfold enumerate.
      destruct (loop_globals (later_iteration_body (_eos_token_id self)) fst
                  (later_iteration_confined _) (zip (_formatters self) column) 0 st1)
        as (_ & _ & ->).
      pose proof (last_column_state input_ids (with_length (n + 1) st)) as Hst.
      rewrite Hcol in Hst. simpl in Hst. subst st1. simpl. by rewrite Hlength.
    + rewrite (bind_Raise _ _ _ _ _ _ Hcol). cbn [fst snd].
      pose proof (last_column_state input_ids (with_length (n + 1) st)) as Hst.
      rewrite Hcol in Hst. simpl in Hst. subst st1. simpl. by rewrite Hlength.
  - unfold enumerate.
    destruct (loop_globals first_iteration_body (λ x, x.1.1) first_iteration_confined
                (zip (zip (_formatters self) (configs self)) (rows input_ids)) 0
                (with_length (shape1 input_ids) st)) as (_ & _ & ->).
    done.
Qed.

Lemma mask_scores_globals self st :
  let st' := (mask_scores self st).1.1 in
  shape1 (scores st') = shape1 (scores st)
  ∧ shape0 (scores st') = shape0 (scores st)
  ∧ _last_input_id_length st' = _last_input_id_length st.
Proof.
  apply (loop_globals (mask_body (_eos_token_id self)) id
           (λ k x, confined_mask_body _ k x) (_formatters self) 0 st).
Qed.

Lemma call_state self input_ids st :
  (__call__ self input_ids st).1.1
  = match (update_formatters self input_ids st).2 with
    | Ok _ => (mask_scores self (update_formatters self input_ids st).1.1).1.1
    | Raise _ => (update_formatters self input_ids st).1.1
    end.
Proof.
  rewrite call_run.
  destruct (update_formatters self input_ids st) as [[st1 evs1] [[]|e]]; [| done].
  simpl. by destruct (mask_scores self st1) as [[st2 evs2] [[]|e]].
Qed.

(** X15. A call whose preconditions hold leaves the length of its
    [input_ids] as the stored length, also when it raises later on: the
    length is stored before any formatter is fed. *)
Theorem call_stores_length self input_ids st :
  preconditions self input_ids st →
  _last_input_id_length (__call__ self input_ids st).1.1 = Some (shape1 input_ids).
Proof.
  intros Hpre. rewrite call_state.
  pose proof (update_formatters_length self input_ids st Hpre) as Hlen.
  destruct (update_formatters self input_ids st) as [[st1 evs1] [[]|e]]; simpl in *; [| done].
  destruct (mask_scores_globals self st1) as (_ & _ & ->). done.
Qed.

(** X16. No call can be repeated: whatever a call on [input_ids] did,
    the next call on the same [input_ids] raises [AssertionError] and
    changes nothing. *)
Theorem call_not_repeatable self input_ids st :
  let st' := (__call__ self input_ids st).1.1 in
  __call__ self input_ids st' = (st', [], Raise AssertionError).
Proof.
  intros st'.
  assert (Hrefused : ∀ s, ¬ preconditions self input_ids s →
            __call__ self input_ids s = (s, [], Raise AssertionError)).
  { intros s Hs. rewrite call_run. by rewrite (update_formatters_refused _ _ _ Hs). }
  assert (Hdec : preconditions self input_ids st ∨ ¬ preconditions self input_ids st).
  { unfold preconditions.
    destruct (decide (shape0 input_ids = length (_formatters self))); [| right; by intros []].
    destruct (_last_input_id_length st) as [n|]; [| by left].
    destruct (decide (shape1 input_ids = (n + 1)%nat)); [by left | right; by intros []]. }
  destruct Hdec as [Hpre | Hpre].
  - apply Hrefused. intros [_ Hlength].
    assert (Hstored : _last_input_id_length st' = Some (shape1 input_ids)).
    { unfold st'. rewrite call_state.
      pose proof (update_formatters_length self input_ids st Hpre) as Hlen.
      destruct (update_formatters self input_ids st) as [[st1 evs1] [[]|e]];
        simpl in *; [| done].
      destruct (mask_scores_globals self st1) as (_ & _ & ->). done. }
    rewrite Hstored in Hlength. lia.
  - unfold st'. rewrite (Hrefused st Hpre). simpl. by apply Hrefused.
Qed.

(** *** What a call leaves as it was *)

Lemma update_formatters_frame self input_ids st h :
  h ∉ _formatters self →
  formatter_at (update_formatters self input_ids st).1.1 h = formatter_at st h.
Proof.
  intros Hh. rewrite update_formatters_run.
  destruct (bool_decide (shape0 input_ids = _)); [| done].
  destruct (_last_input_id_length st) as [n|].
  - destruct (bool_decide (shape1 input_ids = _)); [| done].
    pose proof (last_column_state input_ids (with_length (n + 1) st)) as Hst.
    destruct (last_column input_ids (with_length (n + 1) st)) as [[st1 evs1] [column|e]] eqn:Hcol;
      simpl in Hst; subst st1.
    + rewrite (bind_run _ _ _ _ _ _ Hcol). cbn [fst snd]. unfold enumerate.
      destruct (loop_frame (later_iteration_body (_eos_token_id self)) fst
                  (later_iteration_confined _) (zip (_formatters self) column) 0
                  (with_length (n + 1) st)) as [Hf _].
      rewrite Hf; [done |].
      intros ([h' t] & -> & Hin%elem_of_zip_l)%list_elem_of_fmap. done.
    + by rewrite (bind_Raise _ _ _ _ _ _ Hcol).
  - unfold enumerate.
    destruct (loop_frame first_iteration_body (λ x, x.1.1) first_iteration_confined
                (zip (zip (_formatters self) (configs self)) (rows input_ids)) 0
                (with_length (shape1 input_ids) st)) as [Hf _].
    rewrite Hf; [done |].
    intros ([[h' c] p] & -> & Hin%elem_of_zip_l%elem_of_zip_l)%list_elem_of_fmap. done.
Qed.

(** X17. Whatever its outcome, a call keeps the shape of the scores, the
    rows of the scores past the lanes, and every formatter object that is
    not among its formatters. *)
Theorem call_frame self input_ids st :
  let st' := (__call__ self input_ids st).1.1 in
  shape0 (scores st') = shape0 (scores st)
  ∧ shape1 (scores st') = shape1 (scores st)
  ∧ (∀ i, (length (_formatters self) ≤ i)%nat →
       rows (scores st') !! i = rows (scores st) !! i)
  ∧ (∀ h, h ∉ _formatters self → formatter_at st' h = formatter_at st h).
Proof.
  intros st'. unfold st'. rewrite call_state.
  pose proof (keeps_scores_update_formatters self input_ids st) as Hscores.
  pose proof (update_formatters_frame self input_ids st) as Hframe.
  destruct (update_formatters self input_ids st) as [[st1 evs1] [[]|e]]; simpl in *.
  - destruct (mask_scores_globals self st1) as (Hs1 & Hs0 & _).
    destruct (loop_frame (mask_body (_eos_token_id self)) id
                (λ k x, confined_mask_body _ k x) (_formatters self) 0 st1) as [Hf Hr].
    fold (enumerate (_formatters self)) in Hf, Hr. fold (mask_scores self) in Hf, Hr.
    rewrite <- Hscores. split_and!; [done | done | |].
    + intros i Hi. apply Hr. simpl. lia.
    + intros h Hh. rewrite Hf by (by rewrite list_fmap_id). by apply Hframe.
  - rewrite Hscores. split_and!; done.
Qed.

(** X18. When the update of the formatters raises, the call raises the
    same exception with the same state and the same calls; the scores are
    as they were given, and neither [compute_allowed_tokens] nor
    [mask_logits] was called. *)
Theorem update_failure_leaves_scores self input_ids st st1 evs1 e :
  update_formatters self input_ids st = (st1, evs1, Raise e) →
  __call__ self input_ids st = (st1, evs1, Raise e)
  ∧ scores st1 = scores st
  ∧ Forall (λ ev : event, is_masking ev.2 = false) evs1.
Proof.
  intros Hupdate. split_and!.
  - by rewrite call_run, Hupdate.
  - pose proof (keeps_scores_update_formatters self input_ids st) as Hscores.
    by rewrite Hupdate in Hscores.
  - pose proof (update_formatters_emits self input_ids st) as Hemits.
    by rewrite Hupdate in Hemits.
Qed.

Lemma preconditions_dec self input_ids st :
  preconditions self input_ids st ∨ ¬ preconditions self input_ids st.
Proof.
  unfold preconditions.
  destruct (decide (shape0 input_ids = length (_formatters self))); [| right; by intros []].
  destruct (_last_input_id_length st) as [n|]; [| by left].
  destruct (decide (shape1 input_ids = (n + 1)%nat)); [by left | right; by intros []].
Qed.

Lemma mask_body_row eos i h st st' evs :
  mask_body eos (i, h) st = (st', evs, Ok ()) → (i < shape0 (scores st))%nat.
Proof.
  unfold mask_body.
  intros (st1 & evs1 & b & evs2 & Hc & Hrest & ->)%bind_Ok.
  injection Hc as <- <- <-. destruct (is_completed (formatter_at st h)).
  - apply bind_Ok in Hrest as (st2 & evs3 & [] & evs4 & Hfill & _).
    unfold scores_fill_row in Hfill. by destruct (decide _).
  - apply bind_Ok in Hrest as (st2 & evs3 & [] & evs4 & Hcompute & Hrest & ->).
    injection Hcompute as <- <-.
    apply bind_Ok in Hrest as (st3 & evs5 & row & evs6 & Hrow & _).
    unfold scores_row in Hrow. simpl in Hrow.
    destruct (rows (scores st) !! i) eqn:Hi; [| done]. by eapply lookup_lt_Some.
Qed.

(** X19. A call returns only if its preconditions hold and the scores
    have at least as many rows as there are lanes; what it returns is the
    score tensor of the state it leaves, the tensor it was given. *)
Theorem call_returns_only_if self input_ids st st' evs r :
  __call__ self input_ids st = (st', evs, Ok r) →
  preconditions self input_ids st
  ∧ (length (_formatters self) ≤ shape0 (scores st))%nat
  ∧ r = scores st'.
Proof.
  intros (st1 & evs1 & evs2 & Hupdate & Hmask & _ & Hr)%call_Ok. split_and!; [| | done].
  - destruct (preconditions_dec self input_ids st) as [? | Hno]; [done |].
    by rewrite (update_formatters_refused _ _ _ Hno) in Hupdate.
  - pose proof (keeps_scores_update_formatters self input_ids st) as Hscores.
    rewrite Hupdate in Hscores. simpl in Hscores. rewrite <- Hscores.
    destruct (length (_formatters self)) as [|n] eqn:Hn; [lia |].
    enough (n < shape0 (scores st1))%nat by lia.
    apply (loop_Ok_all (mask_body (_eos_token_id self))
             (λ k s, (k < shape0 (scores s))%nat) (_formatters self) 0 st1 st' evs2);
      [| | done | lia].
    + intros k x s s' e. apply mask_body_row.
    + intros k x s k' Hk.
      destruct (confined_mask_body (_eos_token_id self) k x s) as [_ (_ & _ & _ & Hs0 & _)].
      by rewrite <- Hs0.
Qed.

(** *** The row of a lane that is not completed *)

Lemma mask_body_unfinished eos i h st st' evs row :
  mask_body eos (i, h) st = (st', evs, Ok ()) →
  is_completed (formatter_at st h) = false →
  rows (scores st) !! i = Some row →
  formatter_at st' h = (mask_logits (compute_allowed_tokens (formatter_at st h)) row).1
  ∧ rows (scores st') !! i
    = Some (masked_row (shape1 (scores st))
              (mask_logits (compute_allowed_tokens (formatter_at st h)) row).2).
Proof.
  unfold mask_body. intros Hrun Hcompleted Hrow.
  apply bind_Ok in Hrun as (st1 & evs1 & b & evs2 & Hc & Hrest & ->).
  injection Hc as <- <- <-. rewrite Hcompleted in Hrest.
  apply bind_Ok in Hrest as (st2 & evs3 & [] & evs4 & Hcompute & Hrest & ->).
  injection Hcompute as <- <-.
  apply bind_Ok in Hrest as (st3 & evs5 & row' & evs6 & Hget & Hrest & ->).
  unfold scores_row in Hget. simpl in Hget. rewrite Hrow in Hget.
  injection Hget as <- <- <-.
  apply bind_Ok in Hrest as (st4 & evs7 & new & evs8 & Hmask & Hassign & ->).
  unfold fmt_mask_logits in Hmask. simpl in Hmask.
  rewrite fn_lookup_insert in Hmask.
  assert (Hi : (i < length (rows (scores st)))%nat) by (by eapply lookup_lt_Some).
  destruct (mask_logits (compute_allowed_tokens (formatter_at st h)) row)
    as [f [new_score|new_score]]; injection Hmask as <- <- <-.
  - injection Hassign as <- <-. simpl. rewrite fn_lookup_insert.
    split; [done |]. by apply list_lookup_insert_eq.
  - unfold scores_assign_row in Hassign. simpl in Hassign. unfold shape0 in Hassign.
    simpl in Hassign. rewrite decide_True in Hassign by done.
    cbn [fst snd masked_row]. unfold broadcast.
    destruct (decide (length new_score = shape1 (scores st))).
    + injection Hassign as <- <-. simpl. rewrite fn_lookup_insert.
      split; [done |]. by apply list_lookup_insert_eq.
    + destruct new_score as [|x [|]]; try done.
      injection Hassign as <- <-. simpl. rewrite fn_lookup_insert.
      split; [done |]. by apply list_lookup_insert_eq.
Qed.

(** X20. When a call returns, a lane whose machine is not completed once
    the formatters are updated has the row that [mask_logits] made of its
    incoming row after [compute_allowed_tokens]: the row mutated in place,
    or the returned row written back, a row of one element being
    broadcast.  The machine is left as [mask_logits] left it, and the
    masking calls for the lane are one [compute_allowed_tokens] and then
    one [mask_logits]. *)
Theorem unfinished_lane_row
    self input_ids st st1 evs1 st' evs r lane formatter row :
  NoDup (_formatters self) →
  _formatters self !! lane = Some formatter →
  update_formatters self input_ids st = (st1, evs1, Ok ()) →
  is_completed (formatter_at st1 formatter) = false →
  rows (scores st) !! lane = Some row →
  __call__ self input_ids st = (st', evs, Ok r) →
  formatter_at st' formatter
  = (mask_logits (compute_allowed_tokens (formatter_at st1 formatter)) row).1
  ∧ rows r !! lane
    = Some (masked_row (shape1 r)
              (mask_logits (compute_allowed_tokens (formatter_at st1 formatter)) row).2)
  ∧ List.filter is_masking (lane_calls lane evs) = [CComputeAllowedTokens; CMaskLogits].
Proof.
  intros Hnd Hh Hupdate Hcompleted Hrow Hcall.
  apply call_Ok in Hcall as (st1' & evs1' & evs2 & Hupdate' & Hmask & -> & ->).
  rewrite Hupdate in Hupdate'. injection Hupdate' as <- <-.
  pose proof (keeps_scores_update_formatters self input_ids st) as Hscores.
  rewrite Hupdate in Hscores. simpl in Hscores.
  destruct (mask_scores_lane self lane formatter st1 st' evs2 Hh Hmask)
    as (sa & sb & evs_i & Hbody & Hcalls & Hviews).
  destruct (Hviews Hnd) as [Hva Hvb].
  injection Hva as Hfa Hra Hsa. injection Hvb as Hfb Hrb Hsb.
  destruct (mask_scores_globals self st1) as (Hs1 & _). rewrite Hmask in Hs1. simpl in Hs1.
  rewrite <- Hfa in Hcompleted. rewrite <- Hscores, <- Hra in Hrow.
  destruct (mask_body_unfinished _ _ _ _ _ _ _ Hbody Hcompleted Hrow) as [Hf Hr].
  apply mask_body_Ok in Hbody as [(Hyes & _) | (_ & Hevs)]; [congruence |].
  split_and!.
  - by rewrite Hfb, Hf, Hfa.
  - by rewrite Hrb, Hr, Hfa, Hsa, Hs1.
  - rewrite lane_calls_app, List.filter_app, Hcalls, Hevs. simpl.
    pose proof (lane_calls_Forall _ lane _ (update_formatters_emits self input_ids st)) as Hev.
    rewrite Hupdate in Hev. simpl in Hev.
    induction Hev as [|c cs Hc _ IH]; [done |]. simpl. by rewrite Hc.
Qed.

(** *** The state of the formatters after the update *)

Lemma accept_all_cons (f f' : F) token tokens :
  accept_token f token = Some f' →
  accept_all f (token :: tokens) = accept_all f' tokens.
Proof. unfold accept_all. simpl. by intros ->. Qed.

Lemma later_loop_feeds eos l k st st' evs h :
  for_each (later_iteration_body eos) (enumerate_from k l) st = (st', evs, Ok ()) →
  accept_all (formatter_at st h) (fed_tokens eos h l) = Some (formatter_at st' h).
Proof.
  revert k st evs. induction l as [|[h0 token] l IH]; intros k st evs; simpl.
  - by intros [= <- <-].
  - intros (st1 & evs1 & [] & evs2 & Hbody & Hrest & ->)%bind_Ok.
    specialize (IH _ _ _ Hrest). unfold later_iteration_body in Hbody.
    apply when_Ok in Hbody. unfold fed_tokens in *.
    destruct (decide (token = eos)) as [->|Hne].
    + rewrite bool_decide_false in Hbody by (by intros []).
      destruct Hbody as [-> _].
      rewrite filter_cons_False by (by intros [_ []]). done.
    + rewrite bool_decide_true in Hbody by done.
      unfold fmt_accept_token in Hbody.
      destruct (accept_token (formatter_at st h0) token) as [f|] eqn:Ha; [| done].
      injection Hbody as <- <-. simpl in IH.
      destruct (decide (h0 = h)) as [->|Hh].
      * rewrite filter_cons_True by done. rewrite fmap_cons. simpl.
        rewrite (accept_all_cons _ _ _ _ Ha). by rewrite fn_lookup_insert in IH.
      * rewrite filter_cons_False by (by intros [? _]).
        by rewrite fn_lookup_insert_ne in IH.
Qed.

(** X21. In a later call whose update returns, every formatter object
    has accepted, from the state it was in, the new tokens other than the
    end of sequence of the lanes that hold it, in the order of the lanes:
    an object that several lanes share is fed the tokens of all of them. *)
Theorem later_call_feeds_formatters self input_ids st st1 evs1 n column h :
  _last_input_id_length st = Some n →
  update_formatters self input_ids st = (st1, evs1, Ok ()) →
  mapM list.last (rows input_ids) = Some column →
  accept_all (formatter_at st h)
    (fed_tokens (_eos_token_id self) h (zip (_formatters self) column))
  = Some (formatter_at st1 h).
Proof.
  intros Hlast Hupdate Hcolumn.
  apply (update_formatters_later _ _ _ _ _ _ Hlast) in Hupdate
    as (_ & column' & Hcolumn' & Hloop).
  rewrite Hcolumn in Hcolumn'. injection Hcolumn' as <-.
  unfold enumerate in Hloop. by apply (later_loop_feeds _ _ _ _ _ _ h) in Hloop.
Qed.

Lemma for_each_accept_token_state lane h tokens st st' evs :
  for_each (fmt_accept_token lane h) tokens st = (st', evs, Ok ()) →
  accept_all (formatter_at st h) tokens = Some (formatter_at st' h).
Proof.
  revert st evs. induction tokens as [|token tokens IH]; intros st evs; simpl.
  - by intros [= <- <-].
  - intros (st1 & evs1 & [] & evs2 & Ha & Hrest & ->)%bind_Ok.
    unfold fmt_accept_token in Ha.
    destruct (accept_token (formatter_at st h) token) as [f|] eqn:Hf; [| done].
    injection Ha as <- <-. rewrite (accept_all_cons _ _ _ _ Hf).
    apply IH in Hrest. simpl in Hrest. by rewrite fn_lookup_insert in Hrest.
Qed.

Lemma first_iteration_body_state lane h config prompt st st' evs :
  first_iteration_body (lane, (h, config, prompt)) st = (st', evs, Ok ()) →
  accept_all
    (if reset_on_completion config && is_completed (formatter_at st h)
     then reset (formatter_at st h) else formatter_at st h)
    (if read_prompt config then prompt else [])
  = Some (formatter_at st' h).
Proof.
  unfold first_iteration_body.
  intros (st1 & evs1 & [] & evs2 & Hreset & Hprompt & ->)%bind_Ok.
  assert (Hst1 : formatter_at st1 h
                 = if reset_on_completion config && is_completed (formatter_at st h)
                   then reset (formatter_at st h) else formatter_at st h).
  { apply when_Ok in Hreset. destruct (reset_on_completion config); simpl.
    - apply bind_Ok in Hreset as (st2 & evs3 & b & evs4 & Hc & Hr & ->).
      injection Hc as <- <- <-. apply when_Ok in Hr.
      destruct (is_completed (formatter_at st h)).
      + injection Hr as <- <-. simpl. by rewrite fn_lookup_insert.
      + by destruct Hr as [-> _].
    - by destruct Hreset as [-> _]. }
  rewrite <- Hst1. apply when_Ok in Hprompt. destruct (read_prompt config).
  - by eapply for_each_accept_token_state.
  - by destruct Hprompt as [-> _].
Qed.

(** X22. In a first call whose update returns, with pairwise distinct
    formatters, the machine of a lane is left in the state that it reaches
    from its initial state, reset when the lane has [reset_on_completion]
    and the machine was completed, by accepting the prompt of the lane in
    order when the lane has [read_prompt]. *)
Theorem first_call_formatter_state
    self input_ids st st1 evs1 lane formatter config prompt :
  _last_input_id_length st = None →
  NoDup (_formatters self) →
  update_formatters self input_ids st = (st1, evs1, Ok ()) →
  _formatters self !! lane = Some formatter →
  configs self !! lane = Some config →
  rows input_ids !! lane = Some prompt →
  accept_all
    (if reset_on_completion config && is_completed (formatter_at st formatter)
     then reset (formatter_at st formatter) else formatter_at st formatter)
    (if read_prompt config then prompt else [])
  = Some (formatter_at st1 formatter).
Proof.
  intros Hlast Hnd Hupdate Hh Hconfig Hprompt.
  apply (update_formatters_first _ _ _ _ _ Hlast) in Hupdate as [_ Hloop].
  assert (Hitem : zip (zip (_formatters self) (configs self)) (rows input_ids) !! lane
                  = Some (formatter, config, prompt)).
  { apply lookup_zip_with_Some. exists (formatter, config), prompt.
    split_and!; [done | | done].
    apply lookup_zip_with_Some. by exists formatter, config. }
  unfold enumerate in Hloop.
  destruct (loop_lane first_iteration_body (λ x, x.1.1) first_iteration_confined
              _ 0 lane _ _ _ _ Hitem Hloop)
    as (sa & sb & evs_i & Hbody & _ & Hviews).
  simpl in Hbody, Hviews.
  destruct Hviews as [Hva Hvb]; [by apply zip_zip_fst_NoDup |].
  injection Hva as Hfa _ _. injection Hvb as Hfb _ _. simpl in Hfa.
  apply first_iteration_body_state in Hbody. by rewrite Hfb, <- Hfa.
Qed.

(** *** The two phases of a call *)

Lemma mask_scores_emits self :
  emits (λ c, is_update c = false) (mask_scores self : M F unit).
Proof.
  unfold mask_scores. apply emits_for_each. intros [i h]. unfold mask_body.
  apply emits_bind; [intros st; by repeat constructor |].
  intros [|].
  - apply emits_bind; [| intros _].
    + intros st. unfold scores_fill_row. destruct (decide _); constructor.
    + intros st. unfold scores_set.
      destruct (_ !! _); [destruct (index _ _) |]; constructor.
  - apply emits_bind; [intros st; by repeat constructor | intros _].
    apply emits_bind; [| intros row].
    { intros st. unfold scores_row. destruct (_ !! _); constructor. }
    apply emits_bind; [| intros [new|]].
    + intros st. unfold fmt_mask_logits.
      destruct (mask_logits _ _) as [f [row'|row']]; by repeat constructor.
    + intros st. unfold scores_assign_row.
      destruct (decide _); [destruct (decide _); [| destruct new as [|x [|]]] |];
        constructor.
    + apply emits_ret.
Qed.

(** X23. In every call, whatever its outcome, the calls that change a
    state machine ([reset], [accept_token]) all come before the calls of
    the masking ([compute_allowed_tokens], [mask_logits]). *)
Theorem call_updates_precede_masking self input_ids st :
  ∃ evs1 evs2,
    (__call__ self input_ids st).1.2 = evs1 ++ evs2
    ∧ Forall (λ ev : event, is_masking ev.2 = false) evs1
    ∧ Forall (λ ev : event, is_update ev.2 = false) evs2.
Proof.
  rewrite call_run.
  pose proof (update_formatters_emits self input_ids st) as Hupdate.
  destruct (update_formatters self input_ids st) as [[st1 evs1] [[]|e]]; simpl in Hupdate.
  - pose proof (mask_scores_emits self st1) as Hmask.
    exists evs1, (mask_scores self st1).1.2. split_and!; [| done | done].
    by destruct (mask_scores self st1) as [[st2 evs2] [[]|e]].
  - exists evs1, []. split_and!; [by rewrite app_nil_r | done | constructor].
Qed.

(** *** A lane at which the masking stops *)

Lemma for_each_stops {A} (body : nat * A → M F unit) l1 x l2 n st st2 evs2 st3 evs3 e :
  for_each body (enumerate_from n l1) st = (st2, evs2, Ok ()) →
  body ((n + length l1)%nat, x) st2 = (st3, evs3, Raise e) →
  for_each body (enumerate_from n (l1 ++ x :: l2)) st = (st3, evs2 ++ evs3, Raise e).
Proof.
  revert n st evs2. induction l1 as [|y l1 IH]; intros n st evs2; simpl.
  - intros [= <- <-]. rewrite Nat.add_0_r. intros Hbody.
    by rewrite (bind_Raise _ _ _ _ _ _ Hbody).
  - intros (st1 & evs1 & [] & evs4 & Hy & Hrest & ->)%bind_Ok Hbody.
    rewrite (bind_run _ _ _ _ _ _ Hy).
    replace (n + S (length l1))%nat with (S n + length l1)%nat in Hbody by lia.
    rewrite (IH _ _ _ Hrest Hbody). simpl. by rewrite app_assoc.
Qed.

Lemma mask_scores_stops self lane h st1 st2 evs2 st3 evs3 e :
  _formatters self !! lane = Some h →
  mask_scores (first_lanes lane self) st1 = (st2, evs2, Ok ()) →
  mask_body (_eos_token_id self) (lane, h) st2 = (st3, evs3, Raise e) →
  mask_scores self st1 = (st3, evs2 ++ evs3, Raise e).
Proof.
  intros Hh Hprefix Hbody. unfold mask_scores, enumerate in *. simpl in Hprefix.
  rewrite <- (take_drop_middle _ _ _ Hh).
  apply (for_each_stops _ _ _ _ _ _ _ _ _ _ _ Hprefix).
  rewrite length_take_le by (apply Nat.lt_le_incl; by eapply lookup_lt_Some).
  done.
Qed.

Lemma call_stops self input_ids st st1 evs1 st3 evs e :
  update_formatters self input_ids st = (st1, evs1, Ok ()) →
  mask_scores self st1 = (st3, evs, Raise e) →
  __call__ self input_ids st = (st3, evs1 ++ evs, Raise e).
Proof. intros Hupdate Hmask. by rewrite call_run, Hupdate, Hmask. Qed.

(** X24. When the formatters are updated and the lanes before a lane
    are masked, and the machine of that lane is then completed while the
    end-of-sequence id is not an index of a row of the scores, the call
    raises [IndexError] at that lane: the machines are as the masking of
    the earlier lanes left them, and the row of the lane, if the scores
    have one, is already negative infinity everywhere. *)
Theorem completed_lane_eos_out_of_range
    self input_ids st st1 evs1 st2 evs2 lane formatter :
  update_formatters self input_ids st = (st1, evs1, Ok ()) →
  mask_scores (first_lanes lane self) st1 = (st2, evs2, Ok ()) →
  _formatters self !! lane = Some formatter →
  is_completed (formatter_at st2 formatter) = true →
  index (shape1 (scores st)) (_eos_token_id self) = None →
  ∃ st',
    __call__ self input_ids st
    = (st', evs1 ++ evs2 ++ [(lane, CIsCompleted)], Raise IndexError)
    ∧ formatter_at st' = formatter_at st2
    ∧ ((lane < shape0 (scores st))%nat →
       rows (scores st') !! lane = Some (replicate (shape1 (scores st)) neg_inf)).
Proof.
  intros Hupdate Hprefix Hh Hcompleted Hindex.
  pose proof (keeps_scores_update_formatters self input_ids st) as Hscores.
  rewrite Hupdate in Hscores. simpl in Hscores.
  destruct (mask_scores_globals (first_lanes lane self) st1) as (Hs1 & Hs0 & _).
  rewrite Hprefix in Hs1, Hs0. simpl in Hs1, Hs0. rewrite Hscores in Hs1, Hs0.
  assert (Hbody : ∃ st',
            mask_body (_eos_token_id self) (lane, formatter) st2
            = (st', [(lane, CIsCompleted)], Raise IndexError)
            ∧ formatter_at st' = formatter_at st2
            ∧ ((lane < shape0 (scores st))%nat →
               rows (scores st') !! lane = Some (replicate (shape1 (scores st)) neg_inf))).
  { unfold mask_body, mbind at 1, M_bind, fmt_is_completed. rewrite Hcompleted.
    unfold mbind, M_bind, scores_fill_row. rewrite Hs0, Hs1.
    destruct (decide (lane < shape0 (scores st))%nat) as [Hlane|Hlane].
    - unfold scores_set. simpl. rewrite Hs1, Hindex.
      rewrite <- Hs0 in Hlane.
      rewrite list_lookup_insert_eq by done. simpl.
      eexists. split_and!; [done | done |]. intros _. simpl.
      by apply list_lookup_insert_eq.
    - exists st2. split_and!; [done | done | done]. }
  destruct Hbody as (st' & Hbody & Hf & Hrow). exists st'. split_and!; [| done | done].
  apply (call_stops _ _ _ _ _ _ _ _ Hupdate).
  by apply (mask_scores_stops _ _ _ _ _ _ _ _ _ Hh Hprefix).
Qed.

(** X25. When the scores have fewer rows than there are lanes, and the
    formatters are updated and the lanes that have a row are masked, the
    call raises [IndexError] at the first lane without a row: the scores
    are as the masking of the other lanes left them. *)
Theorem scores_too_short self input_ids st st1 evs1 st2 evs2 :
  update_formatters self input_ids st = (st1, evs1, Ok ()) →
  mask_scores (first_lanes (shape0 (scores st)) self) st1 = (st2, evs2, Ok ()) →
  (shape0 (scores st) < length (_formatters self))%nat →
  (__call__ self input_ids st).2 = Raise IndexError
  ∧ scores (__call__ self input_ids st).1.1 = scores st2.
Proof.
  intros Hupdate Hprefix Hshort.
  destruct (lookup_lt_is_Some_2 _ _ Hshort) as [h Hh].
  pose proof (keeps_scores_update_formatters self input_ids st) as Hscores.
  rewrite Hupdate in Hscores. simpl in Hscores.
  destruct (mask_scores_globals (first_lanes (shape0 (scores st)) self) st1) as (_ & Hs0 & _).
  rewrite Hprefix in Hs0. simpl in Hs0. rewrite Hscores in Hs0.
  assert (Hbody : ∃ st' evs3,
            mask_body (_eos_token_id self) (shape0 (scores st), h) st2
            = (st', evs3, Raise IndexError)
            ∧ scores st' = scores st2).
  { unfold mask_body, mbind at 1, M_bind, fmt_is_completed.
    destruct (is_completed (formatter_at st2 h)).
    - unfold mbind, M_bind, scores_fill_row. rewrite Hs0.
      rewrite decide_False by lia. by eexists _, _.
    - unfold mbind, M_bind, fmt_compute_allowed_tokens, scores_row. simpl.
      rewrite lookup_ge_None_2 by (fold (shape0 (scores st2)); lia).
      by eexists _, _. }
  destruct Hbody as (st' & evs3 & Hbody & Hsame).
  rewrite (call_stops _ _ _ _ _ _ _ _ Hupdate
             (mask_scores_stops _ _ _ _ _ _ _ _ _ Hh Hprefix Hbody)).
  done.
Qed.

End ProcessorProperties.


(** ** The examples, run *)

Example colliding_vocabulary :
  id_to_token_string <$> create_engine_vocabulary colliding_tokenizer
  = Ok [(1, " "); (2, "a")].
Proof. reflexivity. Qed.

Lemma _multiple_replace_no_occurrence_witness :
  _multiple_replace [("G", " ")] "abc" = Ok "abc".
Proof.
  apply _multiple_replace_no_occurrence.
  - discriminate.
  - repeat constructor.
Defined.

Lemma _multiple_replace_key_witness :
  _multiple_replace spelled_replacements "G" = Ok " ".
Proof.
  apply _multiple_replace_key.
  - reflexivity.
  - repeat constructor; discriminate.
Defined.

Lemma create_engine_vocabulary_tables_agree_witness :
  [(0, [32%N]); (1, [10%N]); (2, [97%N]); (3, [32%N; 97%N]); (4, [10%N; 10%N]);
   (5, [97%N; 32%N; 10%N; 97%N])]
  = prod_map id encode_utf8
      <$> [(0, " "); (1, NL); (2, "a"); (3, " a"); (4, NL +:+ NL);
           (5, "a " +:+ NL +:+ "a")].
Proof.
  exact (create_engine_vocabulary_tables_agree spelled_tokenizer
           {| id_to_token :=
                [(0, [32%N]); (1, [10%N]); (2, [97%N]); (3, [32%N; 97%N]);
                 (4, [10%N; 10%N]); (5, [97%N; 32%N; 10%N; 97%N])];
              id_to_token_string :=
                [(0, " "); (1, NL); (2, "a"); (3, " a"); (4, NL +:+ NL);
                 (5, "a " +:+ NL +:+ "a")] |} eq_refl).
Defined.

Lemma create_engine_vocabulary_entries_witness :
  ∃ replacements,
    old_char_to_new_char spelled_tokenizer (get_vocab spelled_tokenizer) whitespace
    = Ok replacements
    ∧ ∀ id text,
        (id, text) ∈ [(0, " "); (1, NL); (2, "a"); (3, " a"); (4, NL +:+ NL);
                      (5, "a " +:+ NL +:+ "a")] →
        ∃ token, (token, id) ∈ get_vocab spelled_tokenizer
                 ∧ _multiple_replace replacements token = Ok text.
Proof.
  exact (create_engine_vocabulary_entries spelled_tokenizer
           {| id_to_token :=
                [(0, [32%N]); (1, [10%N]); (2, [97%N]); (3, [32%N; 97%N]);
                 (4, [10%N; 10%N]); (5, [97%N; 32%N; 10%N; 97%N])];
              id_to_token_string :=
                [(0, " "); (1, NL); (2, "a"); (3, " a"); (4, NL +:+ NL);
                 (5, "a " +:+ NL +:+ "a")] |} eq_refl).
Defined.

Lemma spelled_keys_NoDup :
  NoDup [" "; NL; "a"; " a"; NL +:+ NL; "a " +:+ NL +:+ "a"].
Proof. by apply (bool_decide_unpack _). Qed.

Lemma spelled_ids_NoDup : NoDup (get_vocab spelled_tokenizer).*2.
Proof. by apply (bool_decide_unpack _). Qed.

Lemma create_engine_vocabulary_rewrites_witness :
  create_engine_vocabulary spelled_tokenizer
  = Ok {| id_to_token :=
            zip (get_vocab spelled_tokenizer).*2
              (encode_utf8 <$> [" "; NL; "a"; " a"; NL +:+ NL; "a " +:+ NL +:+ "a"]);
          id_to_token_string :=
            zip (get_vocab spelled_tokenizer).*2
              [" "; NL; "a"; " a"; NL +:+ NL; "a " +:+ NL +:+ "a"] |}.
Proof.
  apply (create_engine_vocabulary_rewrites spelled_tokenizer spelled_replacements).
  - reflexivity.
  - repeat constructor.
  - exact spelled_keys_NoDup.
  - exact spelled_ids_NoDup.
Defined.

(** The second call of scenario A passes the preconditions. *)
Lemma call_stores_length_witness :
  _last_input_id_length second_call.1.1 = Some 6%nat.
Proof.
  apply (call_stores_length (two_lanes no_replay) one_more after_prompts).
  split; reflexivity.
Defined.

(** The machine of lane 1 rejects its prompt. *)
Lemma update_failure_leaves_scores_witness :
  __call__ (two_lanes EngineGenerationConfig_default) rejected_prompt (start fresh fresh ones)
  = ((update_formatters (two_lanes EngineGenerationConfig_default) rejected_prompt
        (start fresh fresh ones)).1.1,
     [(0, CAcceptToken 0); (1, CAcceptToken 1)]%nat, Raise FormatterError)
  ∧ scores (update_formatters (two_lanes EngineGenerationConfig_default) rejected_prompt
              (start fresh fresh ones)).1.1
    = {| shape1 := 4; rows := ones |}
  ∧ Forall (λ ev : event, is_masking ev.2 = false)
      [(0, CAcceptToken 0); (1, CAcceptToken 1)]%nat.
Proof.
  apply (update_failure_leaves_scores (two_lanes EngineGenerationConfig_default)
           rejected_prompt (start fresh fresh ones)).
  reflexivity.
Defined.

Lemma call_returns_only_if_witness :
  preconditions (two_lanes no_replay) one_more after_prompts
  ∧ (length (_formatters (two_lanes no_replay)) ≤ shape0 (scores after_prompts))%nat
  ∧ scores second_call.1.1 = scores second_call.1.1.
Proof.
  apply (call_returns_only_if (two_lanes no_replay) one_more after_prompts
           second_call.1.1 second_call.1.2).
  reflexivity.
Defined.

(** Lane 1 of the second call of scenario A: its machine is not completed
    and masks position 1 of the row, in place. *)
Lemma unfinished_lane_row_witness :
  formatter_at second_call.1.1 1%nat = {| seen := [0]; done := false |}
  ∧ rows (scores second_call.1.1) !! 1%nat = Some [one; neg_inf; one; one]
  ∧ List.filter is_masking (lane_calls 1 second_call.1.2)
    = [CComputeAllowedTokens; CMaskLogits].
Proof.
  refine (unfinished_lane_row (two_lanes no_replay) one_more after_prompts
            (update_formatters (two_lanes no_replay) one_more after_prompts).1.1
            (update_formatters (two_lanes no_replay) one_more after_prompts).1.2
            second_call.1.1 second_call.1.2 (scores second_call.1.1) 1%nat 1%nat
            [one; neg_inf; one; one] _ _ _ _ _ _).
  - exact two_handles_NoDup.
  - reflexivity.
  - reflexivity.
  - reflexivity.
  - reflexivity.
  - reflexivity.
Defined.

(** Two lanes that share one formatter object: the object accepts the
    token of lane 0 and then the token of lane 1. *)
Lemma later_call_feeds_formatters_witness :
  accept_all fresh (fed_tokens 2 0%nat (zip [0; 0]%nat [0; 3]))
  = Some {| seen := [0; 3]; done := true |}.
Proof.
  refine (later_call_feeds_formatters shared_lanes shared_history after_one_token
            (update_formatters shared_lanes shared_history after_one_token).1.1
            (update_formatters shared_lanes shared_history after_one_token).1.2
            1%nat [0; 3] 0%nat _ _ _).
  - reflexivity.
  - reflexivity.
  - reflexivity.
Defined.

(** The completed machine of lane 0 is reset and accepts its prompt. *)
Lemma first_call_formatter_state_witness :
  accept_all (reset finished) [0] = Some {| seen := [0]; done := false |}.
Proof.
  refine (first_call_formatter_state (two_lanes replay) accepted_prompt
            (start finished fresh ones)
            (update_formatters (two_lanes replay) accepted_prompt
               (start finished fresh ones)).1.1
            (update_formatters (two_lanes replay) accepted_prompt
               (start finished fresh ones)).1.2
            0%nat 0%nat replay [0] _ _ _ _ _ _).
  - reflexivity.
  - exact two_handles_NoDup.
  - reflexivity.
  - reflexivity.
  - reflexivity.
  - reflexivity.
Defined.

Example normalising_vocabulary :
  id_to_token_string <$> create_engine_vocabulary normalising_tokenizer
  = Ok [(0, TAB); (1, "a" +:+ TAB +:+ "b")].
Proof. reflexivity. Qed.

(** The space and the tab share the spelling [_]: the tab, which comes
    later, is the replacement. *)
Lemma old_char_to_new_char_last_wins_witness :
  Dict.get "_" [("_", TAB)]
  = list.last (filter (λ char, spelling normalising_tokenizer
                                 (get_vocab normalising_tokenizer) char = Some "_")
                 whitespace).
Proof.
  exact (old_char_to_new_char_last_wins normalising_tokenizer
           (get_vocab normalising_tokenizer) whitespace [("_", TAB)] "_" eq_refl).
Defined.

(** The machine of lane 1 is completed and the end-of-sequence id is out
    of range: lane 0 is masked, the row of lane 1 is wiped, and the call
    raises. *)
Lemma completed_lane_eos_out_of_range_witness :
  ∃ st',
    __call__ far_eos_lanes prompts (start fresh finished ones)
    = (st', [(0, CIsCompleted); (0, CComputeAllowedTokens); (0, CMaskLogits);
             (1, CIsCompleted)]%nat, Raise IndexError)
    ∧ formatter_at st'
      = formatter_at (mask_scores (first_lanes 1 far_eos_lanes)
                        (update_formatters far_eos_lanes prompts
                           (start fresh finished ones)).1.1).1.1
    ∧ ((1 < shape0 (scores (start fresh finished ones)))%nat →
       rows (scores st') !! 1%nat
       = Some (replicate (shape1 (scores (start fresh finished ones))) neg_inf)).
Proof.
  refine (completed_lane_eos_out_of_range far_eos_lanes prompts
            (start fresh finished ones)
            (update_formatters far_eos_lanes prompts (start fresh finished ones)).1.1 []
            (mask_scores (first_lanes 1 far_eos_lanes)
               (update_formatters far_eos_lanes prompts
                  (start fresh finished ones)).1.1).1.1
            (mask_scores (first_lanes 1 far_eos_lanes)
               (update_formatters far_eos_lanes prompts
                  (start fresh finished ones)).1.1).1.2
            1%nat 1%nat _ _ _ _ _);
    reflexivity.
Defined.

(** Two lanes and scores of one row: the row is masked, and the call
    raises at lane 1. *)
Lemma scores_too_short_witness :
  (__call__ (two_lanes EngineGenerationConfig_default) accepted_prompt
     (start fresh fresh one_row)).2 = Raise IndexError
  ∧ scores (__call__ (two_lanes EngineGenerationConfig_default) accepted_prompt
              (start fresh fresh one_row)).1.1
    = {| shape1 := 4; rows := [[one; neg_inf; one; one]] |}.
Proof.
  refine (scores_too_short (two_lanes EngineGenerationConfig_default) accepted_prompt
            (start fresh fresh one_row) _ _
            (mask_scores (first_lanes 1 (two_lanes EngineGenerationConfig_default))
               (update_formatters (two_lanes EngineGenerationConfig_default) accepted_prompt
                  (start fresh fresh one_row)).1.1).1.1
            _ _ _ _).
  - reflexivity.
  - reflexivity.
  - unfold shape0. simpl. lia.
Defined.
